(** * changesreader: the feed-consumption engine

    A shallow embedding of [index.js] (class [ChangesReader]: the long-poll
    loop of [start]/[get], and [spool]) and of [lib/changeprocessor.js] (the
    batch accumulator), followed by the properties the specification states
    about them.

    Conventions.
    - JavaScript values that the code inspects dynamically (sequence tokens,
      query-string values, [err.reason]) are [JsVal]s, with JavaScript's
      truthiness and strict equality written out.
    - Objects used as dictionaries (the query parameters, [opts.qs], the
      request headers) are [gmap]s, and [Object.assign] is a union in which
      the assigned object wins.
    - The asynchronous loop is run against a script: one [Turn] per request,
      holding what the server answered, how long it took, and what the
      consumer did meanwhile.  What the reader does is recorded as a list of
      [Action]s: requests sent, events emitted, timers armed.
    - The environment is the one the code is written for: [async.doWhilst]
      with a synchronous test, timers that fire after the delay they are
      given, listeners that do not throw, and an 'error' listener attached
      (Node's emitter throws on an 'error' nobody listens to). *)

From Stdlib Require Import ZArith Bool List Lia.
From stdpp Require Import gmap strings.
Import ListNotations.

Local Open Scope string_scope.
Local Open Scope list_scope.
Local Open Scope Z_scope.

(** ** JavaScript values *)

Inductive JsVal : Type :=
| JUndefined
| JNull
| JBool (b : bool)
| JNum (n : Z)
| JStr (s : string).

#[global] Instance JsVal_eq_dec : EqDecision JsVal.
Proof. solve_decision. Defined.

(** [if (v)]: undefined, null, false, 0 and the empty string are falsy. *)
Definition truthy (v : JsVal) : bool :=
  match v with
  | JUndefined | JNull => false
  | JBool b => b
  | JNum n => negb (n =? 0)
  | JStr s => negb (String.eqb s "")
  end.

(** [a !== b] on primitive values. *)
Definition strict_neq (a b : JsVal) : bool := negb (bool_decide (a = b)).

(** ** Change records and response bodies *)

Module Change.
(** [{seq, id, changes, deleted?, doc?}] *)
Record t : Type := Build {
  seq : JsVal;
  id : string;
  changes : list string;
  deleted : bool;
  doc : option string
}.
End Change.

(** The body of a long-poll response, [{results, last_seq}]; either field may
    be missing ([None], [JUndefined]). *)
Record Body : Type := {
  results : option (list Change.t);
  last_seq : JsVal
}.

(** ** Events and actions *)

Inductive Event : Type :=
| EChange (c : Change.t)
| EBatch (data : list Change.t) (callback : bool)
| ESeq (token : JsVal)
| EError (statusCode : Z)
| EEnd (token : JsVal).

Record Req : Type := {
  baseURL : string;
  url_db : string;               (* url = encodeURIComponent(db) + '/_changes' *)
  method : string;
  params : gmap string JsVal;
  responseType : option string;
  data_selector : option string; (* req.data.selector *)
  req_headers : gmap string string
}.

Inductive Action : Type :=
| Request (ts : Z) (req : Req)   (* axios(req), issued at time ts *)
| Emit (e : Event)               (* self.ee.emit(...) *)
| SetTimeout (delay : Z).        (* setTimeout(next, delay) *)

(** ** The batch accumulator, lib/changeprocessor.js *)

Module ChangeProcessor.

(** The closure state of one accumulator: [buffer], [changeProcessor.lastSeq]
    and the [batchSize] it was created with. *)
Record t : Type := Build {
  buffer : list Change.t;
  lastSeq : JsVal;
  batchSize : Z
}.

(** [changeProcessor(ee, batchSize)] *)
Definition create (batchSize : Z) : t :=
  {| buffer := []; lastSeq := JStr "0"; batchSize := batchSize |}.

(** [emit(data)]: publish the batch, then read [data[data.length - 1].seq].
    On an empty [data] that read throws a TypeError after the event has
    been published: the second component is then [None]. *)
Definition emit (data : list Change.t) : list Event * option JsVal :=
  ([EBatch data false], Change.seq <$> last data).

(** [chunk[chunk.length - 1] === ',' ? chunk.slice(0, -1) : chunk]; 44 is
    the code of the comma. *)
Definition strip (chunk : string) : string :=
  let n := String.length chunk in
  match String.get (n - 1)%nat chunk with
  | Some c =>
      if Ascii.eqb c (Ascii.ascii_of_nat 44)
      then String.substring 0 (n - 1)%nat chunk
      else chunk
  | None => chunk
  end.

(** [buffer.splice(0, n)]: the removed prefix and what stays; a negative
    count removes nothing. *)
Definition splice0 (n : Z) (buffer : list Change.t) : list Change.t * list Change.t :=
  (take (Z.to_nat n) buffer, drop (Z.to_nat n) buffer).

Section Parser.
(** [JSON.parse] on one line of the feed, at the type of change records:
    [None] when it throws.  The feed frames nothing else that parses, its
    other lines being the two halves of the envelope. *)
Variable JSON_parse : string -> option Change.t.

(** [_transform(chunk, encoding, done)].  Every path ends in [done()]. *)
Definition _transform (cp : t) (chunk : string) : t * list Event :=
  let chunk := strip chunk in
  match JSON_parse chunk with
  | Some j =>
      let buffer := buffer cp ++ [j] in
      if Z.of_nat (length buffer) >=? batchSize cp then
        let '(data, buffer) := splice0 (batchSize cp) buffer in
        match emit data with
        | (evs, Some s) => (Build buffer s (batchSize cp), evs)
        | (evs, None) => (Build buffer (lastSeq cp) (batchSize cp), evs)
        end
      else (Build buffer (lastSeq cp) (batchSize cp), [])
  | None => (cp, [])
  end.

(** [_flush(done)].  Here [data] is the whole non-empty buffer, so the
    read of its last [seq] cannot throw. *)
Definition _flush (cp : t) : t * list Event :=
  match buffer cp with
  | [] => (cp, [])
  | _ :: _ =>
      let '(data, buffer) := splice0 (Z.of_nat (length (buffer cp))) (buffer cp) in
      match emit data with
      | (evs, Some s) => (Build buffer s (batchSize cp), evs)
      | (evs, None) => (Build buffer (lastSeq cp) (batchSize cp), evs)
      end
  end.

(** Writing the lines of a stream, one [_transform] each. *)
Fixpoint write (cp : t) (lines : list string) : t * list Event :=
  match lines with
  | [] => (cp, [])
  | chunk :: lines =>
      let '(cp, evs) := _transform cp chunk in
      let '(cp, evs') := write cp lines in
      (cp, evs ++ evs')
  end.

(** A whole stream: every line written, then the stream ends. *)
Definition pipe (cp : t) (lines : list string) : t * list Event :=
  let '(cp, evs) := write cp lines in
  let '(cp, evs') := _flush cp in
  (cp, evs ++ evs').

End Parser.
End ChangeProcessor.

(** ** The reader session and the long-poll loop, index.js *)

Module ChangesReader.

(** The fields of a [ChangesReader] object.  [ee] is the identity of the
    current [EventEmitter] object: [new EventEmitter()] yields one this
    reader has not held before. *)
Record t : Type := Build {
  db : string;
  couchURL : string;
  headers : gmap string string;
  ee : nat;
  batchSize : Z;
  fastChanges : bool;
  since : JsVal;
  includeDocs : bool;
  timeout : Z;
  heartbeat : Z;
  started : bool;
  wait : bool;
  stopOnEmptyChanges : bool;
  continue : bool;
  qs : gmap string JsVal;
  selector : option string
}.

(** [setDefaults()] *)
Definition setDefaults (self : t) : t :=
  {| db := db self; couchURL := couchURL self; headers := headers self;
     ee := S (ee self);
     batchSize := 100;
     fastChanges := false;
     since := JStr "now";
     includeDocs := false;
     timeout := 60000;
     heartbeat := 5000;
     started := false;
     wait := false;
     stopOnEmptyChanges := false;
     continue := true;
     qs := ∅;
     selector := None |}.

(** [new ChangesReader(db, couchURL, headers)]; [userAgent] stands for the
    default ['user-agent'] string built from the package and Node versions. *)
Definition constructor (db couchURL userAgent : string)
    (headers : gmap string string) : t :=
  let self := setDefaults (Build db couchURL ∅ 0 0 false JUndefined false 0 0
                                 false false false false ∅ None) in
  Build db couchURL (headers ∪ {[ "user-agent" := userAgent ]})
        (ee self) (batchSize self) (fastChanges self) (since self)
        (includeDocs self) (timeout self) (heartbeat self) (started self)
        (wait self) (stopOnEmptyChanges self) (continue self) (qs self)
        (selector self).

Definition set_continue (b : bool) (self : t) : t :=
  Build (db self) (couchURL self) (headers self) (ee self) (batchSize self)
        (fastChanges self) (since self) (includeDocs self) (timeout self)
        (heartbeat self) (started self) (wait self) (stopOnEmptyChanges self)
        b (qs self) (selector self).

Definition set_since (v : JsVal) (self : t) : t :=
  Build (db self) (couchURL self) (headers self) (ee self) (batchSize self)
        (fastChanges self) v (includeDocs self) (timeout self)
        (heartbeat self) (started self) (wait self) (stopOnEmptyChanges self)
        (continue self) (qs self) (selector self).

Definition set_started (b : bool) (self : t) : t :=
  Build (db self) (couchURL self) (headers self) (ee self) (batchSize self)
        (fastChanges self) (since self) (includeDocs self) (timeout self)
        (heartbeat self) b (wait self) (stopOnEmptyChanges self)
        (continue self) (qs self) (selector self).

Definition set_stopOnEmptyChanges (b : bool) (self : t) : t :=
  Build (db self) (couchURL self) (headers self) (ee self) (batchSize self)
        (fastChanges self) (since self) (includeDocs self) (timeout self)
        (heartbeat self) (started self) (wait self) b
        (continue self) (qs self) (selector self).

(** [stop()] *)
Definition stop (self : t) : t := set_continue false self.

(** The [opts] object: the properties of the session it may carry.  An
    absent property is [None]; [opts || {}] is [no_opts]. *)
Module Opts.
Record t : Type := Build {
  batchSize : option Z;
  fastChanges : option bool;
  since : option JsVal;
  includeDocs : option bool;
  timeout : option Z;
  heartbeat : option Z;
  started : option bool;
  wait : option bool;
  stopOnEmptyChanges : option bool;
  continue : option bool;
  qs : option (gmap string JsVal);
  selector : option (option string)
}.
End Opts.

Definition no_opts : Opts.t :=
  Opts.Build None None None None None None None None None None None None.

(** [Object.assign(self, opts)] *)
Definition assign (self : t) (opts : Opts.t) : t :=
  {| db := db self; couchURL := couchURL self; headers := headers self;
     ee := ee self;
     batchSize := default (batchSize self) (Opts.batchSize opts);
     fastChanges := default (fastChanges self) (Opts.fastChanges opts);
     since := default (since self) (Opts.since opts);
     includeDocs := default (includeDocs self) (Opts.includeDocs opts);
     timeout := default (timeout self) (Opts.timeout opts);
     heartbeat := default (heartbeat self) (Opts.heartbeat opts);
     started := default (started self) (Opts.started opts);
     wait := default (wait self) (Opts.wait opts);
     stopOnEmptyChanges :=
       default (stopOnEmptyChanges self) (Opts.stopOnEmptyChanges opts);
     continue := default (continue self) (Opts.continue opts);
     qs := default (qs self) (Opts.qs opts);
     selector := default (selector self) (Opts.selector opts) |}.

(** The long-poll request of one iteration (lines 77-98).  The extra query
    parameters are those of [opts.qs], assigned last, so they win. *)
Definition request (self : t) (opts : Opts.t) : Req :=
  let params : gmap string JsVal :=
    {[ "feed" := JStr "longpoll";
       "timeout" := JNum (timeout self);
       "since" := since self;
       "limit" := JNum (batchSize self);
       "include_docs" := JBool (includeDocs self) ]} in
  let params :=
    if fastChanges self then <["seq_interval" := JNum (batchSize self)]> params
    else params in
  let params :=
    match selector self with
    | Some _ => <["filter" := JStr "_selector"]> params
    | None => params
    end in
  {| baseURL := couchURL self;
     url_db := db self;
     method := "post";
     params := default ∅ (Opts.qs opts) ∪ params;
     responseType := None;
     data_selector := selector self;
     req_headers := headers self |}.

(** How an iteration hands control back to [async.doWhilst]. *)
Inductive Next : Type :=
| NextNow (err : JsVal)      (* next(err), called in the handler *)
| NextAfter (delay : Z)      (* setTimeout(next, delay) *)
| NextOnAck.                 (* next() inside the callback given to 'batch' *)

(** [data && data.results && data.results.length > 0] *)
Definition has_results (data : option Body) : bool :=
  match data with
  | Some {| results := Some (_ :: _) |} => true
  | _ => false
  end.

(** [data.results] where it is an array, else nothing. *)
Definition results_of (data : option Body) : list Change.t :=
  match data with
  | Some {| results := Some l |} => l
  | _ => []
  end.

(** The pacing of an empty response (lines 133-137 and 147-151). *)
Definition pace (self : t) (timeSinceLastReq : Z) : list Action * Next :=
  if timeSinceLastReq >? timeout self then ([], NextNow JUndefined)
  else ([SetTimeout (timeout self - timeSinceLastReq)],
        NextAfter (timeout self - timeSinceLastReq)).

(** The [then] handler (lines 102-153), block by block. *)

(** Lines 106-112, emit 'change' events. *)
Definition emit_changes (data : option Body) : list Action :=
  if has_results data then map (fun c => Emit (EChange c)) (results_of data)
  else [].

(** Lines 114-118, update the since state. *)
Definition update_since (self : t) (data : option Body) : t * list Action :=
  match data with
  | Some d =>
      if truthy (last_seq d) && strict_neq (last_seq d) (since self)
      then (set_since (last_seq d) self, [Emit (ESeq (last_seq d))])
      else (self, [])
  | None => (self, [])
  end.

(** Lines 120-123, stop on empty batch or small batch. *)
Definition stop_on_small_batch (self : t) (data : option Body) : t :=
  match data with
  | Some {| results := Some l |} =>
      if stopOnEmptyChanges self && (Z.of_nat (length l) <? batchSize self)
      then set_continue false self else self
  | _ => self
  end.

(** Lines 125-153, the 'batch' event and the hand-over to the loop. *)
Definition emit_batch (self : t) (data : option Body) (timeSinceLastReq : Z)
    : list Action * Next :=
  if wait self then
    if has_results data
    then ([Emit (EBatch (results_of data) true)], NextOnAck)
    else pace self timeSinceLastReq
  else
    if has_results data
    then ([Emit (EBatch (results_of data) false)], NextNow JUndefined)
    else if negb (continue self) then ([], NextNow JUndefined)
    else pace self timeSinceLastReq.

Definition onFulfilled (self : t) (data : option Body) (timeSinceLastReq : Z)
    : t * list Action * Next :=
  let changes := emit_changes data in
  let '(self, seqs) := update_since self data in
  let self := stop_on_small_batch self data in
  let '(acts, nxt) := emit_batch self data timeSinceLastReq in
  (self, changes ++ seqs ++ acts, nxt).

(** A rejected request: [err.response.status] when a response came back,
    and [err.reason]. *)
Record Err : Type := {
  response_status : option Z;
  reason : JsVal
}.

(** [(err.response && err.response.status) || 500] *)
Definition statusCode (err : Err) : Z :=
  match response_status err with
  | Some st => if st =? 0 then 500 else st
  | None => 500
  end.

(** The test of line 160. *)
Definition fatal (code : Z) : bool :=
  negb (code =? 0) && (code >=? 400) && negb (code =? 429) && (code <? 500).

(** The [catch] handler (lines 154-166). *)
Definition onRejected (self : t) (err : Err) : t * list Action * Next :=
  let code := statusCode err in
  if fatal code
  then (set_continue false self, [Emit (EError code)], NextNow (reason err))
  else (self, [Emit (EError code)], NextNow JUndefined).

(** *** The loop

    One [Turn] per request: what came back and after how long
    ([getTS() - lastReqTS]), and what the consumer did: whether [stop()] was
    called while the request was in flight, whether it was called after the
    handler ran and before [next] (from a listener, or during a timer or a
    pending acknowledgement), and, in [wait] mode, after how long the
    'batch' listener invoked its callback ([None]: it never did). *)
Inductive Reply : Type :=
| Fulfilled (data : option Body)
| Rejected (err : Err).

Record Turn : Type := {
  reply : Reply;
  latency : Z;
  stop_in_flight : bool;
  stop_before_next : bool;
  ack : option Z
}.

(** Where a run stands once the script is used up. *)
Inductive Outcome : Type :=
| Ended (self : t)         (* the final callback ran *)
| InFlight (self : t)      (* a request is outstanding *)
| AwaitingAck (self : t).  (* the 'batch' callback has not been invoked *)

Definition prepend (acts : list Action) (r : list Action * Outcome)
    : list Action * Outcome :=
  (acts ++ r.1, r.2).

(** The final callback of [doWhilst] (lines 173-177). *)
Definition finish (self : t) : list Action * Outcome :=
  ([Emit (EEnd (since self))], Ended (setDefaults self)).

Definition handle (self : t) (r : Reply) (timeSinceLastReq : Z)
    : t * list Action * Next :=
  match r with
  | Fulfilled data => onFulfilled self data timeSinceLastReq
  | Rejected err => onRejected self err
  end.

(** [async.doWhilst(iteratee, test, callback)]: the iteratee runs first;
    [next(err)] with a truthy [err] goes to the callback, otherwise the
    test [self.continue] decides between another iteration and the
    callback.  [now] is the clock when the request is issued. *)
Fixpoint doWhilst (opts : Opts.t) (self : t) (now : Z) (script : list Turn)
    : list Action * Outcome :=
  prepend [Request now (request self opts)]
    match script with
    | [] => ([], InFlight self)
    | turn :: script =>
        let self := if stop_in_flight turn then stop self else self in
        let '(self, acts, nxt) := handle self (reply turn) (latency turn) in
        let next (err : JsVal) (now : Z) :=
          let self := if stop_before_next turn then stop self else self in
          if truthy err then finish self
          else if continue self then doWhilst opts self now script
          else finish self in
        prepend acts
          match nxt with
          | NextNow err => next err (now + latency turn)
          | NextAfter delay => next JUndefined (now + latency turn + delay)
          | NextOnAck =>
              match ack turn with
              | Some d => next JUndefined (now + latency turn + d)
              | None => ([], AwaitingAck self)
              end
          end
    end.

(** [start(opts)]: the session after the call, the emitter returned, and
    whether a loop was begun (it then runs from the session returned). *)
Definition start (opts : Opts.t) (self : t) : t * nat * bool :=
  if started self then (self, ee self, false)
  else
    let self := set_started true self in
    let self := assign self opts in
    (self, ee self, true).

(** [get(opts)] *)
Definition get (opts : Opts.t) (self : t) : t * nat * bool :=
  let self := set_stopOnEmptyChanges true self in
  start opts self.

(** What a call of [start] or [get] at time [now] makes the reader do
    against a script. *)
Definition run (call : Opts.t -> t -> t * nat * bool) (opts : Opts.t)
    (self : t) (now : Z) (script : list Turn)
    : option (list Action * Outcome) :=
  let '(self, _, begun) := call opts self in
  if begun then Some (doWhilst opts self now script) else None.

(** *** spool *)

(** The request of [spool] (lines 199-215). *)
Definition spool_request (self : t) : Req :=
  let params : gmap string JsVal :=
    {[ "since" := since self;
       "include_docs" := JBool (includeDocs self);
       "seq_interval" := JNum (batchSize self) ]} in
  let params :=
    match selector self with
    | Some _ => <["filter" := JStr "_selector"]> params
    | None => params
    end in
  {| baseURL := couchURL self;
     url_db := db self;
     method := "post";
     params := params;
     responseType := Some "stream";
     data_selector := selector self;
     req_headers := headers self |}.

(** The promise of [axios(req)] in [spool]: rejected, or resolved with a
    stream that delivers [chunks] and ends. *)
Inductive SpoolReply : Type :=
| SpoolRejected (err : Err)
| SpoolStream (chunks : list string).

Section Spool.
(** [lib/liner.js], the line splitter the stream is piped through first,
    and [JSON.parse]. *)
Variable liner : list string -> list string.
Variable JSON_parse : string -> option Change.t.

(** [spool(opts)]: the session after the call, the emitter returned and
    the actions that follow.  Only the [then] branch is wired: a
    rejection reaches no handler. *)
Definition spool (opts : Opts.t) (self : t) (now : Z) (r : SpoolReply)
    : t * nat * list Action :=
  let self := setDefaults self in
  let self := assign self opts in
  let cp := ChangeProcessor.create (batchSize self) in
  (self, ee self,
   Request now (spool_request self) ::
   match r with
   | SpoolRejected _ => []
   | SpoolStream chunks =>
       let '(cp, evs) := ChangeProcessor.pipe JSON_parse cp (liner chunks) in
       map Emit evs ++ [SetTimeout 10; Emit (EEnd (ChangeProcessor.lastSeq cp))]
   end).
End Spool.

End ChangesReader.

(** ** Observations

    What the properties below read off a stream of lines, a list of events
    or a list of actions. *)

(** The records of a stream: its lines that parse, in order. *)
Definition records (JSON_parse : string -> option Change.t)
    (lines : list string) : list Change.t :=
  omap (fun chunk => JSON_parse (ChangeProcessor.strip chunk)) lines.

(** The payloads of the 'batch' events, in order. *)
Definition batches (evs : list Event) : list (list Change.t) :=
  omap (fun e => match e with EBatch data _ => Some data | _ => None end) evs.

(** The 'error' events. *)
Definition errors (evs : list Event) : list Z :=
  omap (fun e => match e with EError code => Some code | _ => None end) evs.

(** The requests issued, with the time of each. *)
Definition requests (acts : list Action) : list (Z * Req) :=
  omap (fun a => match a with Request ts req => Some (ts, req) | _ => None end) acts.

(** The events emitted. *)
Definition events (acts : list Action) : list Event :=
  omap (fun a => match a with Emit e => Some e | _ => None end) acts.

(** The records carried by the 'change' events, in order. *)
Definition change_events (acts : list Action) : list Change.t :=
  omap (fun a => match a with Emit (EChange c) => Some c | _ => None end) acts.

(** The tokens carried by the 'seq' and 'end' events, in order. *)
Definition tokens (acts : list Action) : list JsVal :=
  omap (fun a =>
          match a with
          | Emit (ESeq token) | Emit (EEnd token) => Some token
          | _ => None
          end) acts.

(** The [results] array of the response of a turn; a failed request has
    none. *)
Definition turn_results (turn : ChangesReader.Turn) : list Change.t :=
  match ChangesReader.reply turn with
  | ChangesReader.Fulfilled data => ChangesReader.results_of data
  | ChangesReader.Rejected _ => []
  end.

(** The token a turn returns: the [last_seq] of a response that has one.
    A body without the field reads [undefined]; like [null], [0] and the
    empty string it is falsy, which is how line 115 tells that there is no
    token. *)
Definition returned_by (data : option Body) : option JsVal :=
  match data with
  | Some d => if truthy (last_seq d) then Some (last_seq d) else None
  | None => None
  end.

Definition returned (turn : ChangesReader.Turn) : option JsVal :=
  match ChangesReader.reply turn with
  | ChangesReader.Fulfilled data => returned_by data
  | ChangesReader.Rejected _ => None
  end.

(** The [last_seq] a turn shows, read as the wire has it: whatever the body
    holds under that name. *)
Definition shown (turn : ChangesReader.Turn) : option JsVal :=
  match ChangesReader.reply turn with
  | ChangesReader.Fulfilled (Some d) =>
      match last_seq d with
      | JUndefined => None
      | token => Some token
      end
  | _ => None
  end.

(** The tokens of the wire protocol are never falsy. *)
Definition well_formed (turn : ChangesReader.Turn) : Prop :=
  forall token, shown turn = Some token -> truthy token = true.

(** The last token returned over some turns, or [init] when there was
    none. *)
Definition last_returned (init : JsVal) (turns : list ChangesReader.Turn) : JsVal :=
  foldl (fun cur turn => default cur (returned turn)) init turns.

(** Consecutive elements are related by [R]. *)
Fixpoint chain {A} (R : A -> A -> Prop) (l : list A) : Prop :=
  match l with
  | [] => True
  | x :: l' => match l' with [] => True | y :: _ => R x y end /\ chain R l'
  end.

(** The session a turn is handled with: [stop()] may have been called while
    the request was in flight. *)
Definition in_flight (self : ChangesReader.t) (turn : ChangesReader.Turn)
    : ChangesReader.t :=
  if ChangesReader.stop_in_flight turn then ChangesReader.stop self else self.

(** The handler of a turn at work: session, actions and hand-over. *)
Definition handled (self : ChangesReader.t) (turn : ChangesReader.Turn)
    : ChangesReader.t * list Action * ChangesReader.Next :=
  ChangesReader.handle (in_flight self turn) (ChangesReader.reply turn)
    (ChangesReader.latency turn).

(** The session the continuation test of the loop reads after a turn. *)
Definition after_turn (self : ChangesReader.t) (turn : ChangesReader.Turn)
    : ChangesReader.t :=
  if ChangesReader.stop_before_next turn
  then ChangesReader.stop (handled self turn).1.1
  else (handled self turn).1.1.

(** When [next] is called after a turn, with which error and how long after
    the response; [None] when it never is. *)
Definition next_call (turn : ChangesReader.Turn) (nxt : ChangesReader.Next)
    : option (JsVal * Z) :=
  match nxt with
  | ChangesReader.NextNow err => Some (err, 0)
  | ChangesReader.NextAfter delay => Some (JUndefined, delay)
  | ChangesReader.NextOnAck =>
      (fun d => (JUndefined, d)) <$> ChangesReader.ack turn
  end.

(** The tokens carried by the 'seq' events alone, and by the 'end' events
    alone. *)
Definition seq_tokens (acts : list Action) : list JsVal :=
  omap (fun a => match a with Emit (ESeq token) => Some token | _ => None end) acts.

Definition end_tokens (acts : list Action) : list JsVal :=
  omap (fun a => match a with Emit (EEnd token) => Some token | _ => None end) acts.

(** The delays of the timers armed. *)
Definition timers (acts : list Action) : list Z :=
  omap (fun a => match a with SetTimeout delay => Some delay | _ => None end) acts.

(** The turns of a script a run has had the replies of: one for each
    request issued, as far as the script goes. *)
Definition consumed (acts : list Action) (script : list ChangesReader.Turn)
    : list ChangesReader.Turn :=
  take (length (requests acts)) script.

(** The status code of the 'error' a turn gives rise to, if its request
    failed. *)
Definition turn_error (turn : ChangesReader.Turn) : option Z :=
  match ChangesReader.reply turn with
  | ChangesReader.Rejected err => Some (ChangesReader.statusCode err)
  | ChangesReader.Fulfilled _ => None
  end.

(** The batch a turn gives rise to: its results, when there are some. *)
Definition turn_batch (turn : ChangesReader.Turn) : option (list Change.t) :=
  match turn_results turn with
  | [] => None
  | l => Some l
  end.

(** A session that differs from [self] in its cursor and its [continue]
    flag at most. *)
Definition same_config (self s : ChangesReader.t) : Prop :=
  exists c v, s = ChangesReader.set_continue c (ChangesReader.set_since v self).

(** A turn during which nothing stops an unbounded run: the consumer does
    not call [stop()], a failure is not a fatal one, and in [wait] mode a
    batch is acknowledged. *)
Definition undisturbed (wait : bool) (turn : ChangesReader.Turn) : Prop :=
  ChangesReader.stop_in_flight turn = false /\
  ChangesReader.stop_before_next turn = false /\
  match ChangesReader.reply turn with
  | ChangesReader.Rejected err =>
      ChangesReader.fatal (ChangesReader.statusCode err) = false
  | ChangesReader.Fulfilled data =>
      wait = true -> ChangesReader.has_results data = true ->
      is_Some (ChangesReader.ack turn)
  end.

(** ** Sample inputs

    Concrete readers, scripts and streams on which the properties below are
    exercised. *)

Module Sample.
Import ChangesReader.

(** A stand-in for [JSON.parse]: the lines of the shape [{seq:token}] are
    the records. *)
Definition parse (line : string) : option Change.t :=
  if String.prefix "{seq:" line
  then Some (Change.Build
               (JStr (String.substring 5 (String.length line - 6) line))
               "doc" [] false None)
  else None.

(** A stand-in for the line splitter: the stream delivers whole lines. *)
Definition liner (chunks : list string) : list string := chunks.

(** A streamed response: the envelope, three records, the envelope. *)
Definition feed : list string :=
  ["{results:["; "{seq:1-a},"; "{seq:2-b},"; "{seq:3-c}"; "],"; "last_seq:3-c}"].

Definition reader : t :=
  constructor "orders" "http://localhost:5984" "changesreader" ∅.

Definition change (n : Z) : Change.t :=
  Change.Build (JNum n) "doc" [] false None.

(** The server answers with [l] and [last_seq = token] after [latency]. *)
Definition answer (l : list Change.t) (token : JsVal) (latency : Z) : Turn :=
  {| reply := Fulfilled (Some {| results := Some l; last_seq := token |});
     latency := latency;
     stop_in_flight := false; stop_before_next := false; ack := None |}.

(** The request fails after [latency], with the status of the response if
    there was one. *)
Definition failure (status : option Z) (latency : Z) : Turn :=
  {| reply := Rejected {| response_status := status; reason := JUndefined |};
     latency := latency;
     stop_in_flight := false; stop_before_next := false; ack := None |}.

(** The same failure, [stop()] having been called while the request was in
    flight. *)
Definition stopped_failure (status : option Z) (latency : Z) : Turn :=
  {| reply := Rejected {| response_status := status; reason := JUndefined |};
     latency := latency;
     stop_in_flight := true; stop_before_next := false; ack := None |}.

(** Options that only set the starting cursor. *)
Definition since_opts (token : JsVal) : Opts.t :=
  Opts.Build None None (Some token) None None None None None None None None None.

(** The sessions a first [start()] and a first [get()] leave behind. *)
Definition started_reader : t := (start no_opts reader).1.1.
Definition bounded_reader : t := (get no_opts reader).1.1.

(** The same answer in [wait] mode, acknowledged by the consumer after
    [delay]. *)
Definition acked_answer (l : list Change.t) (token : JsVal) (latency delay : Z)
    : Turn :=
  {| reply := Fulfilled (Some {| results := Some l; last_seq := token |});
     latency := latency;
     stop_in_flight := false; stop_before_next := false; ack := Some delay |}.

(** Options that set [wait] mode; options with extra query parameters that
    name a [since] of their own. *)
Definition wait_opts : Opts.t :=
  Opts.Build None None None None None None None (Some true) None None None None.

Definition qs_opts : Opts.t :=
  Opts.Build None None None None None None None None None None
    (Some {[ "since" := JStr "0"; "style" := JStr "all_docs" ]}) None.

Definition waiting_reader : t := (start wait_opts reader).1.1.

(** Numeric tokens in their order; any other token only below itself. *)
Definition token_le (a b : JsVal) : Prop :=
  match a, b with
  | JNum x, JNum y => x <= y
  | _, _ => a = b
  end.

End Sample.

(** * Properties of the batch accumulator *)

Section Accumulator.
Variable JSON_parse : string -> option Change.t.

Local Abbreviation _transform := (ChangeProcessor._transform JSON_parse).
Local Abbreviation write := (ChangeProcessor.write JSON_parse).
Local Abbreviation pipe := (ChangeProcessor.pipe JSON_parse).

Lemma write_cons cp chunk lines :
  write cp (chunk :: lines) =
  ((write (_transform cp chunk).1 lines).1,
   (_transform cp chunk).2 ++ (write (_transform cp chunk).1 lines).2).
Proof.
  simpl. destruct (_transform cp chunk) as [cp1 evs].
  simpl. by destruct (write cp1 lines).
Qed.

(** A line that does not parse leaves the accumulator as it was. *)
Lemma transform_unparsed cp chunk :
  JSON_parse (ChangeProcessor.strip chunk) = None ->
  _transform cp chunk = (cp, []).
Proof. intros H. unfold ChangeProcessor._transform. by rewrite H. Qed.

(** (C9) A line that fails to parse once its trailing comma is stripped is
    dropped without a trace: [_transform] emits nothing (no 'error' event in
    particular), leaves the buffer and the last sequence token as they were,
    and the lines that follow are processed as if it had not been there. *)
Theorem unparsed_line_discarded (cp : ChangeProcessor.t) (chunk : string) :
  JSON_parse (ChangeProcessor.strip chunk) = None ->
  (_transform cp chunk).2 = [] /\
  errors (_transform cp chunk).2 = [] /\
  ChangeProcessor.buffer (_transform cp chunk).1 = ChangeProcessor.buffer cp /\
  (_transform cp chunk).1 = cp /\
  forall lines, write cp (chunk :: lines) = write cp lines.
Proof.
  intros H. rewrite (transform_unparsed _ _ H).
  repeat split; try reflexivity.
  intros lines. rewrite write_cons, (transform_unparsed _ _ H). simpl.
  by destruct (write cp lines).
Qed.

(** *** Batches

    With a positive batch size the buffer never reaches the batch size
    between two lines.  Under that invariant, a line that parses either
    joins the buffer or completes a batch. *)

Lemma transform_parsed cp chunk j n :
  JSON_parse (ChangeProcessor.strip chunk) = Some j ->
  ChangeProcessor.batchSize cp = Z.of_nat n ->
  (length (ChangeProcessor.buffer cp) < n)%nat ->
  _transform cp chunk =
  if decide (S (length (ChangeProcessor.buffer cp)) = n)
  then (ChangeProcessor.Build [] (Change.seq j) (Z.of_nat n),
        [EBatch (ChangeProcessor.buffer cp ++ [j]) false])
  else (ChangeProcessor.Build (ChangeProcessor.buffer cp ++ [j])
          (ChangeProcessor.lastSeq cp) (Z.of_nat n), []).
Proof.
  intros Hp Hbs Hlt. unfold ChangeProcessor._transform. rewrite Hp, Hbs.
  rewrite length_app. simpl length.
  destruct (decide (S (length (ChangeProcessor.buffer cp)) = n)) as [Heq | Hne].
  - replace (Z.of_nat (length (ChangeProcessor.buffer cp) + 1) >=? Z.of_nat n)
      with true by (symmetry; apply Z.geb_le; lia).
    unfold ChangeProcessor.splice0, ChangeProcessor.emit.
    rewrite Nat2Z.id.
    rewrite take_ge, drop_ge by (rewrite length_app; simpl; lia).
    by rewrite last_snoc.
  - replace (Z.of_nat (length (ChangeProcessor.buffer cp) + 1) >=? Z.of_nat n)
      with false; [done |].
    symmetry. rewrite Z.geb_leb. apply Z.leb_gt. lia.
Qed.

(** What [write] has done after any number of lines: the batches emitted are
    all full, together with the buffer they hold every record so far in
    order, and the last sequence token is that of the last record emitted. *)
Lemma write_batches n lines : forall cp,
  (0 < n)%nat ->
  ChangeProcessor.batchSize cp = Z.of_nat n ->
  (length (ChangeProcessor.buffer cp) < n)%nat ->
  exists bl,
    (write cp lines).2 = map (fun b => EBatch b false) bl /\
    Forall (fun b => length b = n) bl /\
    concat bl ++ ChangeProcessor.buffer (write cp lines).1 =
      ChangeProcessor.buffer cp ++ records JSON_parse lines /\
    (length (ChangeProcessor.buffer (write cp lines).1) < n)%nat /\
    ChangeProcessor.batchSize (write cp lines).1 = Z.of_nat n /\
    ChangeProcessor.lastSeq (write cp lines).1 =
      from_option Change.seq (ChangeProcessor.lastSeq cp) (last (concat bl)).
Proof.
  induction lines as [| chunk lines IH]; intros cp Hn Hbs Hlt.
  - exists []. simpl. rewrite app_nil_r. repeat split; auto.
  - rewrite write_cons. unfold records. simpl omap. fold (records JSON_parse lines).
    destruct (JSON_parse (ChangeProcessor.strip chunk)) as [j |] eqn:Hp.
    + rewrite (transform_parsed _ _ _ _ Hp Hbs Hlt).
      destruct (decide (S (length (ChangeProcessor.buffer cp)) = n)) as [Heq | Hne];
        simpl fst; simpl snd.
      * destruct (IH (ChangeProcessor.Build [] (Change.seq j) (Z.of_nat n)) Hn eq_refl)
          as (bl & Hev & Hall & Hcat & Hlen & Hbs' & Hseq); [simpl; lia |].
        exists ((ChangeProcessor.buffer cp ++ [j]) :: bl).
        simpl in Hcat, Hseq. simpl. rewrite Hev.
        repeat split; auto.
        -- constructor; auto. rewrite length_app. simpl. lia.
        -- rewrite <- !app_assoc. simpl. f_equal. f_equal. exact Hcat.
        -- rewrite Hseq. rewrite <- app_assoc.
           destruct (concat bl) as [| c l] eqn:Hc using rev_ind.
           ++ rewrite app_nil_r. by rewrite last_snoc.
           ++ rewrite !app_assoc. by rewrite !last_snoc.
      * destruct (IH (ChangeProcessor.Build (ChangeProcessor.buffer cp ++ [j])
                        (ChangeProcessor.lastSeq cp) (Z.of_nat n)) Hn eq_refl)
          as (bl & Hev & Hall & Hcat & Hlen & Hbs' & Hseq);
          [simpl; rewrite length_app; simpl; lia |].
        exists bl. simpl in Hcat, Hseq.
        repeat split; auto. rewrite Hcat. by rewrite <- app_assoc.
    + rewrite (transform_unparsed _ _ Hp). simpl fst; simpl snd.
      destruct (IH cp Hn Hbs Hlt) as (bl & Hev & Hall & Hcat & Hlen & Hbs' & Hseq).
      exists bl. repeat split; auto.
Qed.

Lemma pipe_write_flush cp lines :
  pipe cp lines =
  ((ChangeProcessor._flush (write cp lines).1).1,
   (write cp lines).2 ++ (ChangeProcessor._flush (write cp lines).1).2).
Proof.
  unfold ChangeProcessor.pipe. destruct (write cp lines) as [cp1 evs].
  simpl. by destruct (ChangeProcessor._flush cp1).
Qed.

(** [_flush] empties the buffer: a non-empty one leaves as one last batch. *)
Lemma flush_buffer cp :
  ChangeProcessor._flush cp =
  match last (ChangeProcessor.buffer cp) with
  | Some c => (ChangeProcessor.Build [] (Change.seq c) (ChangeProcessor.batchSize cp),
               [EBatch (ChangeProcessor.buffer cp) false])
  | None => (cp, [])
  end.
Proof.
  unfold ChangeProcessor._flush.
  destruct (ChangeProcessor.buffer cp) as [| c l] eqn:Hb; [done |].
  unfold ChangeProcessor.splice0, ChangeProcessor.emit. rewrite Nat2Z.id.
  rewrite take_ge, drop_ge by lia.
  destruct (last (c :: l)) as [c' |] eqn:Hl; [done |].
  by apply last_None in Hl.
Qed.

Lemma length_concat_full {A} (n : nat) (bl : list (list A)) :
  Forall (fun b => length b = n) bl ->
  length (concat bl) = (n * length bl)%nat.
Proof.
  induction 1 as [| b bl Hb _ IH]; simpl; [lia |].
  rewrite length_app, IH, Hb. lia.
Qed.

(** (C4) With a positive batch size, a stream whose lines hold N records
    (among any number of lines that do not parse) leaves the accumulator as
    exactly ceil(N / batchSize) 'batch' events and nothing else; every batch
    but the last has batchSize records, the last one (flushed when the stream
    ends) has between 1 and batchSize; the batches laid end to end are the
    records in their order; and [lastSeq] is then the [seq] of the N-th
    record. *)
Theorem accumulator_batches (batchSize : Z) (lines : list string) :
  0 < batchSize ->
  let rs := records JSON_parse lines in
  let out := pipe (ChangeProcessor.create batchSize) lines in
  exists bl : list (list Change.t),
    out.2 = map (fun b => EBatch b false) bl /\
    Z.of_nat (length bl) = (Z.of_nat (length rs) + batchSize - 1) / batchSize /\
    (forall i b, bl !! i = Some b -> (S i < length bl)%nat ->
                 Z.of_nat (length b) = batchSize) /\
    (forall b, last bl = Some b -> 0 < Z.of_nat (length b) <= batchSize) /\
    concat bl = rs /\
    (forall r, last rs = Some r -> ChangeProcessor.lastSeq out.1 = Change.seq r).
Proof.
  intros Hpos rs out. subst out.
  destruct (write_batches (Z.to_nat batchSize) lines (ChangeProcessor.create batchSize))
    as (bl & Hev & Hall & Hcat & Hlen & Hbs & Hseq);
    [lia | simpl; lia | simpl; lia |].
  simpl in Hcat. fold rs in Hcat.
  rewrite pipe_write_flush, flush_buffer. simpl fst; simpl snd.
  pose proof (length_concat_full _ _ Hall) as Hfull.
  assert (Hlrs : length rs =
    (Z.to_nat batchSize * length bl +
     length (ChangeProcessor.buffer (write (ChangeProcessor.create batchSize) lines).1))%nat).
  { rewrite <- Hcat, length_app. lia. }
  destruct (ChangeProcessor.buffer (write (ChangeProcessor.create batchSize) lines).1)
    as [| c l _] eqn:Hbuf using rev_ind.
  - (* nothing left to flush *)
    rewrite app_nil_r in Hcat. simpl in Hlrs. simpl fst; simpl snd.
    exists bl. rewrite app_nil_r.
    split; [done |]. split; [| split; [| split; [| split]]].
    + apply Z.div_unique with (r := batchSize - 1); [lia | nia].
    + intros i b H _. rewrite Forall_lookup in Hall. apply Hall in H. lia.
    + intros b H. rewrite Forall_lookup in Hall.
      rewrite last_lookup in H. apply Hall in H. lia.
    + done.
    + intros r Hr. rewrite Hseq, Hcat, Hr. done.
  - (* the rest of the buffer is flushed as the last batch *)
    rewrite last_snoc. simpl fst; simpl snd.
    exists (bl ++ [l ++ [c]]). rewrite map_app. simpl map.
    rewrite Hev. rewrite length_app in Hlen, Hlrs. simpl in Hlen, Hlrs.
    split; [done |]. split; [| split; [| split; [| split]]].
    + rewrite length_app. simpl length.
      apply Z.div_unique with (r := Z.of_nat (length l)); [lia | nia].
    + intros i b H H0. rewrite length_app in H0. simpl in H0.
      rewrite lookup_app_l in H by lia.
      rewrite Forall_lookup in Hall. apply Hall in H. lia.
    + intros b H. rewrite last_snoc in H. injection H as <-.
      rewrite length_app. simpl. lia.
    + rewrite concat_app. simpl. by rewrite app_nil_r.
    + intros r Hr. rewrite <- Hcat, app_assoc, last_snoc in Hr.
      by injection Hr as <-.
Qed.

(** *** The last sequence token *)

Lemma batches_app a b : batches (a ++ b) = batches a ++ batches b.
Proof. apply omap_app. Qed.

(** The last record of all batches, over two runs of events. *)
Lemma last_delivered_app (init : JsVal) (a b : list Event) :
  from_option Change.seq init (last (concat (batches (a ++ b)))) =
  from_option Change.seq
    (from_option Change.seq init (last (concat (batches a))))
    (last (concat (batches b))).
Proof.
  rewrite batches_app, concat_app, last_app.
  by destruct (last (concat (batches b))).
Qed.

Lemma transform_lastSeq cp chunk :
  ChangeProcessor.lastSeq (_transform cp chunk).1 =
  from_option Change.seq (ChangeProcessor.lastSeq cp)
    (last (concat (batches (_transform cp chunk).2))).
Proof.
  unfold ChangeProcessor._transform.
  destruct (JSON_parse _) as [j |]; [| done].
  destruct (_ >=? _); [| done].
  unfold ChangeProcessor.splice0, ChangeProcessor.emit.
  destruct (last (take _ _)) as [c |] eqn:Hl; simpl; rewrite app_nil_r, Hl; done.
Qed.

Lemma flush_lastSeq cp :
  ChangeProcessor.lastSeq (ChangeProcessor._flush cp).1 =
  from_option Change.seq (ChangeProcessor.lastSeq cp)
    (last (concat (batches (ChangeProcessor._flush cp).2))).
Proof.
  rewrite flush_buffer.
  destruct (last (ChangeProcessor.buffer cp)) as [c |] eqn:Hl; [| done].
  simpl. by rewrite app_nil_r, Hl.
Qed.

Lemma write_lastSeq lines : forall cp,
  ChangeProcessor.lastSeq (write cp lines).1 =
  from_option Change.seq (ChangeProcessor.lastSeq cp)
    (last (concat (batches (write cp lines).2))).
Proof.
  induction lines as [| chunk lines IH]; intros cp; [done |].
  rewrite write_cons. simpl fst; simpl snd.
  by rewrite last_delivered_app, IH, transform_lastSeq.
Qed.

(** At any time [lastSeq] is the [seq] of the last record delivered in a
    'batch' event, or the value it had when nothing was delivered. *)
Lemma pipe_lastSeq cp lines :
  ChangeProcessor.lastSeq (pipe cp lines).1 =
  from_option Change.seq (ChangeProcessor.lastSeq cp)
    (last (concat (batches (pipe cp lines).2))).
Proof.
  rewrite pipe_write_flush. simpl fst; simpl snd.
  by rewrite last_delivered_app, flush_lastSeq, write_lastSeq.
Qed.

(** The accumulator emits 'batch' events only. *)
Lemma transform_only_batches cp chunk :
  map (fun data => EBatch data false) (batches (_transform cp chunk).2) =
  (_transform cp chunk).2.
Proof.
  unfold ChangeProcessor._transform.
  destruct (JSON_parse _) as [j |]; [| done].
  destruct (_ >=? _); [| done].
  unfold ChangeProcessor.splice0, ChangeProcessor.emit. simpl.
  by destruct (last (take _ _)).
Qed.

Lemma write_only_batches lines : forall cp,
  map (fun data => EBatch data false) (batches (write cp lines).2) =
  (write cp lines).2.
Proof.
  induction lines as [| chunk lines IH]; intros cp; [done |].
  rewrite write_cons. simpl snd.
  by rewrite batches_app, map_app, IH, transform_only_batches.
Qed.

Lemma pipe_only_batches cp lines :
  map (fun data => EBatch data false) (batches (pipe cp lines).2) =
  (pipe cp lines).2.
Proof.
  rewrite pipe_write_flush. simpl snd.
  rewrite batches_app, map_app, write_only_batches. f_equal.
  rewrite flush_buffer. by destruct (last _).
Qed.

End Accumulator.

(** * Properties of the long-poll loop *)

Section LongPoll.
Import ChangesReader.

Lemma prepend_prepend a b r : prepend a (prepend b r) = prepend (a ++ b) r.
Proof. unfold prepend. simpl. by rewrite app_assoc. Qed.

(** One iteration of the loop, spelled out. *)
Lemma doWhilst_cons opts self now turn script :
  doWhilst opts self now (turn :: script) =
  prepend (Request now (request self opts) :: (handled self turn).1.2)
    match next_call turn (handled self turn).2 with
    | Some (err, d) =>
        if truthy err then finish (after_turn self turn)
        else if continue (after_turn self turn)
             then doWhilst opts (after_turn self turn) (now + latency turn + d) script
             else finish (after_turn self turn)
    | None => ([], AwaitingAck (handled self turn).1.1)
    end.
Proof.
  unfold after_turn, handled, in_flight. simpl doWhilst.
  destruct (handle _ _ _) as [[self1 acts] nxt]. simpl.
  rewrite prepend_prepend. simpl app.
  destruct nxt as [err | delay |]; simpl; [by rewrite Z.add_0_r | done |].
  by destruct (ack turn).
Qed.

Lemma doWhilst_nil opts self now :
  doWhilst opts self now [] = ([Request now (request self opts)], InFlight self).
Proof. reflexivity. Qed.

(** The first action of the loop is always the request of the session it is
    entered with. *)
Lemma doWhilst_first_request opts self now script :
  head (requests (doWhilst opts self now script).1) = Some (now, request self opts).
Proof. by destruct script. Qed.

Lemma prepend_fst acts r : (prepend acts r).1 = acts ++ r.1.
Proof. reflexivity. Qed.

Lemma prepend_snd acts r : (prepend acts r).2 = r.2.
Proof. reflexivity. Qed.

Lemma change_events_app a b :
  change_events (a ++ b) = change_events a ++ change_events b.
Proof. apply omap_app. Qed.

Lemma requests_app a b : requests (a ++ b) = requests a ++ requests b.
Proof. apply omap_app. Qed.

Lemma requests_cons_request ts req acts :
  requests (Request ts req :: acts) = (ts, req) :: requests acts.
Proof. reflexivity. Qed.

Lemma change_events_cons_request ts req acts :
  change_events (Request ts req :: acts) = change_events acts.
Proof. reflexivity. Qed.

Lemma change_events_emitted l :
  change_events (map (fun c => Emit (EChange c)) l) = l.
Proof. induction l as [| c l IH]; simpl; [done |]. by f_equal. Qed.

Lemma requests_emitted (l : list Change.t) :
  requests (map (fun c => Emit (EChange c)) l) = [].
Proof. by induction l. Qed.

Lemma has_results_of data : has_results data = false -> results_of data = [].
Proof. by destruct data as [[[[| c l] |] ls] |]. Qed.

(** The handlers issue no request, and the 'change' events of a turn are
    the [results] of its response. *)
Lemma handled_requests self turn : requests (handled self turn).1.2 = [].
Proof.
  unfold handled, handle, onFulfilled, onRejected.
  destruct (reply turn) as [data | err]; [| by case_match].
  destruct (update_since _ data) as [self1 seqs] eqn:Hs.
  destruct (emit_batch _ data _) as [acts nxt] eqn:Hb. simpl.
  rewrite !requests_app.
  assert (requests (emit_changes data) = []) as ->.
  { unfold emit_changes. case_match; [apply requests_emitted | done]. }
  assert (requests seqs = []) as ->.
  { revert Hs. unfold update_since. repeat case_match; by intros [= <- <-]. }
  revert Hb. unfold emit_batch, pace. repeat case_match; by intros [= <- <-].
Qed.

Lemma handled_change_events self turn :
  change_events (handled self turn).1.2 = turn_results turn.
Proof.
  unfold handled, handle, onFulfilled, onRejected, turn_results.
  destruct (reply turn) as [data | err]; [| by case_match].
  destruct (update_since _ data) as [self1 seqs] eqn:Hs.
  destruct (emit_batch _ data _) as [acts nxt] eqn:Hb. simpl.
  rewrite !change_events_app.
  assert (change_events (emit_changes data) = results_of data) as ->.
  { unfold emit_changes. destruct (has_results data) eqn:Hr.
    - apply change_events_emitted.
    - by rewrite has_results_of. }
  assert (change_events seqs = []) as ->.
  { revert Hs. unfold update_since. repeat case_match; by intros [= <- <-]. }
  assert (change_events acts = []) as ->; [| by rewrite app_nil_r].
  revert Hb. unfold emit_batch, pace. repeat case_match; by intros [= <- <-].
Qed.

(** A run whose script is used up with a request outstanding has issued one
    request more than it has had replies. *)
Lemma in_flight_requests opts script : forall self now self',
  (doWhilst opts self now script).2 = InFlight self' ->
  length (requests (doWhilst opts self now script).1) = S (length script).
Proof.
  induction script as [| turn script IH]; intros self now self' Hout; [done |].
  rewrite doWhilst_cons in Hout |- *.
  rewrite prepend_snd in Hout.
  rewrite prepend_fst, requests_app, requests_cons_request, handled_requests.
  simpl. f_equal.
  destruct (next_call turn (handled self turn).2) as [[err d] |]; [| done].
  destruct (truthy err); [done |].
  destruct (continue (after_turn self turn)); [| done].
  by eapply IH.
Qed.

(** What [start] and [get] set going is the loop, entered in the session
    they leave. *)
Lemma run_is_doWhilst call opts self now script r :
  run call opts self now script = Some r ->
  r = doWhilst opts (call opts self).1.1 now script.
Proof.
  unfold run. destruct (call opts self) as [[self' e] [|]]; [| done].
  by intros [= <-].
Qed.

(** Every iteration of a run is itself a run of the loop: the one entered,
    when the request of that iteration is issued, in the session the turns
    before it have left, against the rest of the script.  What is stated
    below of the first turn of a run thus holds of each of its turns. *)
Lemma iteration_is_run opts script : forall k self now ts req,
  requests (doWhilst opts self now script).1 !! k = Some (ts, req) ->
  req = request (foldl after_turn self (take k script)) opts /\
  exists pre,
    length (requests pre) = k /\
    doWhilst opts self now script =
      prepend pre
        (doWhilst opts (foldl after_turn self (take k script)) ts (drop k script)).
Proof.
  induction script as [| turn script IH]; intros k self now ts req Hk.
  - destruct k as [| k]; [| done]. injection Hk as <- <-.
    split; [done |]. by exists [].
  - destruct k as [| k].
    + rewrite <- head_lookup, doWhilst_first_request in Hk. injection Hk as <- <-.
      split; [done |]. by exists [].
    + rewrite doWhilst_cons in Hk |- *.
      rewrite prepend_fst, requests_app, requests_cons_request,
        handled_requests in Hk. simpl in Hk.
      destruct (next_call turn (handled self turn).2) as [[err d] |]; [| done].
      destruct (truthy err); [done |].
      destruct (continue (after_turn self turn)); [| done].
      destruct (IH _ _ _ _ _ Hk) as (Hreq & pre & Hlen & Hrun).
      split; [exact Hreq |].
      exists (Request now (request self opts) :: (handled self turn).1.2 ++ pre).
      split.
      * rewrite requests_cons_request, requests_app, handled_requests.
        simpl. by rewrite Hlen.
      * simpl take. simpl drop. simpl foldl. rewrite Hrun at 1.
        rewrite prepend_prepend. done.
Qed.

(** (C1) In a run of the loop begun by [start] or [get], the records
    carried by the 'change' events are, in order, the [results] arrays of
    the responses the run has received, laid end to end: nothing is dropped,
    repeated or moved.  The responses received are those of the first turns
    of the script, one for each request issued; a run that is still polling
    has received them all. *)
Theorem change_events_are_results (opts : Opts.t) (self : t) (now : Z)
    (script : list Turn) :
  let tr := (doWhilst opts self now script).1 in
  change_events tr =
    concat (map turn_results (take (length (requests tr)) script)) /\
  (forall self', (doWhilst opts self now script).2 = InFlight self' ->
     change_events tr = concat (map turn_results script)).
Proof.
  assert (Hmain : forall script self now,
    change_events (doWhilst opts self now script).1 =
    concat (map turn_results
      (take (length (requests (doWhilst opts self now script).1)) script))).
  { clear. induction script as [| turn script IH]; intros self now; [done |].
    rewrite doWhilst_cons, prepend_fst.
    rewrite requests_app, change_events_app, requests_cons_request,
      change_events_cons_request, handled_requests, handled_change_events.
    simpl. f_equal.
    destruct (next_call turn (handled self turn).2) as [[err d] |]; [| done].
    destruct (truthy err); [done |].
    destruct (continue (after_turn self turn)); [| done].
    apply IH. }
  intros tr. split; [apply Hmain |].
  intros self' Hout. subst tr. rewrite Hmain.
  rewrite (in_flight_requests _ _ _ _ _ Hout).
  by rewrite take_ge by lia.
Qed.

(** *** Failures *)

(** [stop()] touches nothing but [continue]. *)
Lemma since_stop self : since (stop self) = since self.
Proof. reflexivity. Qed.

Lemma request_stop self opts : request (stop self) opts = request self opts.
Proof. reflexivity. Qed.

Lemma setDefaults_stop self : setDefaults (stop self) = setDefaults self.
Proof. reflexivity. Qed.

Lemma fatal_spec code :
  fatal code = true <-> 400 <= code < 500 /\ code <> 429.
Proof. unfold fatal. rewrite !andb_true_iff, !negb_true_iff. lia. Qed.

(** (C2) A request that fails with a normalized status code (the status of
    the response, 500 when there is none) from 400 to 499 other than 429
    makes the handler set [continue] to false, and the run then consists of
    that request, one 'error' event, one 'end' event right after it, and
    nothing more, whatever the server would have answered later: no further
    request is issued. *)
Theorem fatal_error_ends_run (opts : Opts.t) (self : t) (now : Z)
    (turn : Turn) (script : list Turn) (err : Err) :
  reply turn = Rejected err ->
  400 <= statusCode err < 500 ->
  statusCode err <> 429 ->
  continue (handled self turn).1.1 = false /\
  doWhilst opts self now (turn :: script) =
    ([Request now (request self opts);
      Emit (EError (statusCode err));
      Emit (EEnd (since self))],
     Ended (setDefaults self)).
Proof.
  intros Hr Hlo Hne.
  assert (Hf : fatal (statusCode err) = true) by (apply fatal_spec; lia).
  assert (Hh : handled self turn =
    (set_continue false (in_flight self turn),
     [Emit (EError (statusCode err))], NextNow (reason err))).
  { unfold handled, handle. rewrite Hr. unfold onRejected. by rewrite Hf. }
  split; [by rewrite Hh |].
  rewrite doWhilst_cons. unfold after_turn. rewrite Hh. simpl.
  unfold in_flight.
  destruct (truthy (reason err)), (stop_before_next turn), (stop_in_flight turn);
    reflexivity.
Qed.

(** A second request is issued exactly when the continuation test passes. *)
Lemma next_request_continue opts self now turn script x :
  requests (doWhilst opts self now (turn :: script)).1 !! 1%nat = Some x ->
  continue (after_turn self turn) = true /\
  x = (now + latency turn +
         from_option snd 0 (next_call turn (handled self turn).2),
       request (after_turn self turn) opts).
Proof.
  rewrite doWhilst_cons, prepend_fst, requests_app, requests_cons_request,
    handled_requests. simpl.
  destruct (next_call turn (handled self turn).2) as [[err d] |]; [| done].
  destruct (truthy err); [done |].
  destruct (continue (after_turn self turn)); [| done].
  intros Hx. split; [done |].
  rewrite <- head_lookup, doWhilst_first_request in Hx. by injection Hx as <-.
Qed.

(** (C3) A request that fails with a normalized status code of 500 or more,
    or 429, or with no response at all, makes the handler emit one 'error'
    event and call [next] at once without an error, leaving the session, and
    so the [since] cursor, as it found it.  The request that follows is the
    same request again, with the same cursor, issued at the very time the
    failure arrived; and it does follow, the loop repeating, in a session
    that is running and that the consumer does not stop during the turn. *)
Theorem recoverable_error_retries (opts : Opts.t) (self : t) (now : Z)
    (turn : Turn) (script : list Turn) (err : Err) :
  reply turn = Rejected err ->
  500 <= statusCode err \/ statusCode err = 429 \/ response_status err = None ->
  handled self turn =
    (in_flight self turn, [Emit (EError (statusCode err))], NextNow JUndefined) /\
  since (after_turn self turn) = since self /\
  (forall ts req,
     requests (doWhilst opts self now (turn :: script)).1 !! 1%nat = Some (ts, req) ->
     ts = now + latency turn /\ req = request self opts) /\
  (continue self = true ->
   stop_in_flight turn = false ->
   stop_before_next turn = false ->
   doWhilst opts self now (turn :: script) =
     prepend [Request now (request self opts); Emit (EError (statusCode err))]
       (doWhilst opts self (now + latency turn) script) /\
   requests (doWhilst opts self now (turn :: script)).1 !! 1%nat =
     Some (now + latency turn, request self opts)).
Proof.
  intros Hr Hst.
  assert (Hf : fatal (statusCode err) = false).
  { apply not_true_is_false. rewrite fatal_spec.
    destruct Hst as [H | [H | H]]; [lia | lia |].
    unfold statusCode. rewrite H. lia. }
  assert (Hh : handled self turn =
    (in_flight self turn, [Emit (EError (statusCode err))], NextNow JUndefined)).
  { unfold handled, handle. rewrite Hr. unfold onRejected. by rewrite Hf. }
  assert (Hreq : request (after_turn self turn) opts = request self opts).
  { unfold after_turn. rewrite Hh. simpl. unfold in_flight.
    by destruct (stop_before_next turn), (stop_in_flight turn). }
  split; [exact Hh |]. split; [| split].
  - unfold after_turn. rewrite Hh. simpl. unfold in_flight.
    by destruct (stop_before_next turn), (stop_in_flight turn).
  - intros ts req Hnext.
    destruct (next_request_continue _ _ _ _ _ _ Hnext) as [_ Hx].
    rewrite Hh, Hreq in Hx. simpl in Hx. injection Hx as -> ->.
    split; [lia | done].
  - intros Hc Hs1 Hs2.
    assert (Hself : after_turn self turn = self).
    { unfold after_turn. rewrite Hh, Hs2. simpl. unfold in_flight. by rewrite Hs1. }
    assert (Hloop : doWhilst opts self now (turn :: script) =
      prepend [Request now (request self opts); Emit (EError (statusCode err))]
        (doWhilst opts self (now + latency turn) script)).
    { rewrite doWhilst_cons. rewrite Hh. simpl next_call. cbv iota beta.
      simpl truthy. cbv iota. by rewrite Hself, Hc, Z.add_0_r. }
    split; [exact Hloop |].
    rewrite Hloop, prepend_fst. simpl.
    by rewrite <- head_lookup, doWhilst_first_request.
Qed.

(** *** Pacing *)

Lemma continue_after_turn self turn :
  continue (after_turn self turn) = true ->
  continue (handled self turn).1.1 = true /\ stop_before_next turn = false.
Proof. unfold after_turn. by destruct (stop_before_next turn). Qed.

(** An empty response, in a session that is not stopping, is handled by
    emitting at most a 'seq' event and pacing the next call. *)
Lemma handled_empty self turn data :
  reply turn = Fulfilled data ->
  has_results data = false ->
  continue (handled self turn).1.1 = true ->
  exists seqs,
    (forall a, a ∈ seqs -> exists token, a = Emit (ESeq token)) /\
    (handled self turn).1.2 = seqs ++ (pace self (latency turn)).1 /\
    (handled self turn).2 = (pace self (latency turn)).2.
Proof.
  intros Hr He. unfold handled, handle. rewrite Hr. unfold onFulfilled.
  destruct (update_since _ data) as [self1 seqs] eqn:Hs.
  destruct (emit_batch _ data _) as [acts nxt] eqn:Hb. simpl. intros Hc.
  exists seqs.
  assert (Hpace : (acts, nxt) = pace self (latency turn)).
  { rewrite <- Hb. unfold emit_batch. rewrite He, Hc. simpl.
    assert (Ht : timeout (stop_on_small_batch self1 data) = timeout self).
    { transitivity (timeout self1).
      - unfold stop_on_small_batch. by repeat case_match.
      - revert Hs. unfold update_since, in_flight.
        repeat case_match; by intros [= <- <-]. }
    unfold pace. rewrite Ht. by destruct (wait _). }
  unfold emit_changes. rewrite He. simpl.
  rewrite <- Hpace. simpl. split; [| done].
  revert Hs. unfold update_since.
  destruct data as [d |]; [destruct (truthy _ && _) |];
    intros [= <- <-] a Ha.
  - apply list_elem_of_singleton in Ha. eauto.
  - by apply elem_of_nil in Ha.
  - by apply elem_of_nil in Ha.
Qed.

(** An empty response, outside [wait] mode, in a session that is stopping:
    at most a 'seq' event, and [next] at once (line 144). *)
Lemma handled_empty_stopping self turn data :
  reply turn = Fulfilled data ->
  has_results data = false ->
  wait self = false ->
  continue (handled self turn).1.1 = false ->
  exists seqs,
    (forall a, a ∈ seqs -> exists token, a = Emit (ESeq token)) /\
    (handled self turn).1.2 = seqs /\
    (handled self turn).2 = NextNow JUndefined.
Proof.
  intros Hr He Hw. unfold handled, handle. rewrite Hr. unfold onFulfilled.
  destruct (update_since _ data) as [self1 seqs] eqn:Hs.
  destruct (emit_batch _ data _) as [acts nxt] eqn:Hb. simpl. intros Hc.
  exists seqs.
  assert (Hstop : (acts, nxt) = ([], NextNow JUndefined)).
  { rewrite <- Hb. unfold emit_batch. rewrite He, Hc. simpl.
    assert (Hw' : wait (stop_on_small_batch self1 data) = false).
    { rewrite <- Hw. transitivity (wait self1).
      - unfold stop_on_small_batch. by repeat case_match.
      - revert Hs. unfold update_since, in_flight.
        repeat case_match; by intros [= <- <-]. }
    by rewrite Hw'. }
  injection Hstop as -> ->.
  unfold emit_changes. rewrite He. simpl. rewrite app_nil_r. split; [| done].
  revert Hs. unfold update_since.
  destruct data as [d |]; [destruct (truthy _ && _) |];
    intros [= <- <-] a Ha.
  - apply list_elem_of_singleton in Ha. eauto.
  - by apply elem_of_nil in Ha.
  - by apply elem_of_nil in Ha.
Qed.

(** (C5, amended) After a successful response with no results, take the next
    request the loop issues, when it issues one.  With [elapsed] the time
    between the request and its response ([getTS() - lastReqTS]): if
    [elapsed > timeout] it goes out at once, no timer being armed; otherwise
    the handler arms one timer, of exactly [timeout - elapsed], and it goes
    out when that fires.  Nothing else happens in between but, possibly, a
    'seq' event.  It follows that the two requests are no less than
    [timeout] apart.  When the session is not to continue and [wait] mode is
    off, the handler arms no timer: it calls [next] at once and the run
    ends. *)
Theorem empty_response_pacing (opts : Opts.t) (self : t) (now : Z)
    (turn : Turn) (script : list Turn) (data : option Body) :
  reply turn = Fulfilled data ->
  has_results data = false ->
  let elapsed := latency turn in
  let delay := if elapsed >? timeout self then 0 else timeout self - elapsed in
  let timer :=
    if elapsed >? timeout self then []
    else [SetTimeout (timeout self - elapsed)] in
  (forall ts req,
     requests (doWhilst opts self now (turn :: script)).1 !! 1%nat = Some (ts, req) ->
     ts = now + elapsed + delay /\
     timeout self <= ts - now /\
     exists seqs,
       (forall a, a ∈ seqs -> exists token, a = Emit (ESeq token)) /\
       doWhilst opts self now (turn :: script) =
         prepend (Request now (request self opts) :: seqs ++ timer)
           (doWhilst opts (after_turn self turn) ts script)) /\
  (wait self = false ->
   continue (handled self turn).1.1 = false ->
   exists seqs,
     (forall a, a ∈ seqs -> exists token, a = Emit (ESeq token)) /\
     doWhilst opts self now (turn :: script) =
       prepend (Request now (request self opts) :: seqs)
         (finish (after_turn self turn))).
Proof.
  intros Hr He elapsed delay timer. split.
  - intros ts req Hnext.
    destruct (next_request_continue _ _ _ _ _ _ Hnext) as [Hc Hx].
    destruct (continue_after_turn _ _ Hc) as [Hc1 Hsb].
    destruct (handled_empty _ _ _ Hr He Hc1) as (seqs & Hseqs & Hacts & Hnxt).
    assert (Hts : ts = now + elapsed + delay).
    { injection Hx as -> _. rewrite Hnxt. subst elapsed delay. unfold pace.
      by destruct (latency turn >? timeout self). }
    split; [exact Hts |]. split.
    + rewrite Hts. subst elapsed delay.
      destruct (latency turn >? timeout self) eqn:Hgt; lia.
    + exists seqs. split; [exact Hseqs |].
      rewrite doWhilst_cons, Hacts, Hnxt, Hc, Hts. subst elapsed delay timer.
      unfold pace. destruct (latency turn >? timeout self); simpl; done.
  - intros Hw Hc.
    destruct (handled_empty_stopping _ _ _ Hr He Hw Hc) as (seqs & Hseqs & Hacts & Hnxt).
    exists seqs. split; [exact Hseqs |].
    assert (Hc' : continue (after_turn self turn) = false).
    { unfold after_turn. destruct (stop_before_next turn); [done | exact Hc]. }
    by rewrite doWhilst_cons, Hacts, Hnxt, Hc'.
Qed.

(** *** Bounded runs *)

Lemma events_app a b : events (a ++ b) = events a ++ events b.
Proof. apply omap_app. Qed.

Lemma events_emitted (l : list Change.t) :
  events (map (fun c => Emit (EChange c)) l) = map EChange l.
Proof. induction l as [| c l IH]; simpl; [done |]. by f_equal. Qed.

(** (C6) [get(opts)] is [start(opts)] on the session with
    [stopOnEmptyChanges] set to true, so that a run begun by [get] with
    options that do not mention that flag has it set.  In any run that has it
    set, a response with fewer results than [batchSize] makes the handler
    set [continue] to false after emitting that response's 'change' events,
    its 'seq' event if the token moved, and its 'batch' event if there were
    results.  The run issues no further request: it ends with the 'end'
    event as soon as [next] is called, which in [wait] mode, for a non-empty
    batch, is when the consumer acknowledges the batch. *)
Theorem get_bounded_run :
  (forall opts self, get opts self = start opts (set_stopOnEmptyChanges true self)) /\
  (forall opts self,
     started self = false ->
     Opts.stopOnEmptyChanges opts = None ->
     (get opts self).2 = true /\ stopOnEmptyChanges (get opts self).1.1 = true) /\
  (forall opts self now turn script l ls,
     stopOnEmptyChanges self = true ->
     reply turn = Fulfilled (Some {| results := Some l; last_seq := ls |}) ->
     Z.of_nat (length l) < batchSize self ->
     continue (handled self turn).1.1 = false /\
     events (handled self turn).1.2 =
       map EChange l ++
       (if truthy ls && strict_neq ls (since self) then [ESeq ls] else []) ++
       (match l with [] => [] | _ :: _ => [EBatch l (wait self)] end) /\
     doWhilst opts self now (turn :: script) =
       prepend (Request now (request self opts) :: (handled self turn).1.2)
         (match l, wait self, ack turn with
          | _ :: _, true, None => ([], AwaitingAck (handled self turn).1.1)
          | _, _, _ => finish (after_turn self turn)
          end) /\
     requests (doWhilst opts self now (turn :: script)).1 =
       [(now, request self opts)]).
Proof.
  split; [reflexivity |]. split.
  { intros opts self Hs Ho. unfold get, start. simpl. rewrite Hs. simpl.
    by rewrite Ho. }
  intros opts self now turn script l ls Hflag Hr Hlt.
  assert (Hsmall : stopOnEmptyChanges self && (Z.of_nat (length l) <? batchSize self) = true).
  { rewrite Hflag. simpl. apply Z.ltb_lt. lia. }
  assert (Hh : handled self turn =
    let data := Some {| results := Some l; last_seq := ls |} in
    let s1 := (update_since (in_flight self turn) data).1 in
    (set_continue false s1,
     emit_changes data ++ (update_since (in_flight self turn) data).2 ++
       (emit_batch (set_continue false s1) data (latency turn)).1,
     (emit_batch (set_continue false s1) data (latency turn)).2)).
  { unfold handled, handle. rewrite Hr. unfold onFulfilled.
    destruct (update_since _ _) as [s1 seqs] eqn:Hs. cbv beta iota zeta.
    assert (Hst : stop_on_small_batch s1 (Some {| results := Some l; last_seq := ls |})
                  = set_continue false s1).
    { unfold stop_on_small_batch.
      replace (stopOnEmptyChanges s1) with (stopOnEmptyChanges self);
        [replace (batchSize s1) with (batchSize self); [by rewrite Hsmall |] |];
        revert Hs; unfold update_since, in_flight; simpl;
        destruct (stop_in_flight turn), (truthy ls && _); by intros [= <- <-]. }
    rewrite Hst. by destruct (emit_batch _ _ _). }
  assert (Hc : continue (handled self turn).1.1 = false) by (by rewrite Hh).
  assert (Hc' : continue (after_turn self turn) = false).
  { unfold after_turn. destruct (stop_before_next turn); [done | exact Hc]. }
  assert (Hloop : doWhilst opts self now (turn :: script) =
       prepend (Request now (request self opts) :: (handled self turn).1.2)
         (match l, wait self, ack turn with
          | _ :: _, true, None => ([], AwaitingAck (handled self turn).1.1)
          | _, _, _ => finish (after_turn self turn)
          end)).
  { rewrite doWhilst_cons, Hc'. f_equal.
    rewrite Hh. simpl. unfold emit_batch, update_since, in_flight, pace. simpl.
    destruct (stop_in_flight turn); simpl;
      destruct (truthy ls && _); simpl;
      destruct (wait self), l as [| c l]; simpl; try done;
      try (destruct (ack turn); simpl; done);
      destruct (latency turn >? timeout self); simpl; done. }
  split; [exact Hc |]. split; [| split; [exact Hloop |]].
  - rewrite Hh. simpl. unfold emit_changes, emit_batch, update_since, in_flight, pace.
    simpl.
    destruct (stop_in_flight turn); simpl;
      destruct (truthy ls && _); simpl;
      destruct (wait self), l as [| c l]; simpl;
      rewrite ?events_app, ?events_emitted; simpl; try done;
      destruct (latency turn >? timeout self); simpl; done.
  - rewrite Hloop, prepend_fst, requests_app, requests_cons_request,
      handled_requests. simpl. f_equal.
    by destruct l, (wait self), (ack turn).
Qed.

(** *** Starting twice *)

(** (C8, amended) On a session that is already started, [start] changes
    nothing, begins no loop and returns the emitter the session already has.
    [get] too begins no loop and returns that emitter, but it is not without
    effect: it has set [stopOnEmptyChanges] on the running session before
    [start] looks at [started]. *)
Theorem start_while_started (opts : Opts.t) (self : t) :
  started self = true ->
  start opts self = (self, ee self, false) /\
  get opts self = (set_stopOnEmptyChanges true self, ee self, false).
Proof. intros Hs. unfold get, start. simpl. by rewrite Hs. Qed.

(** *** The cursor *)

Lemma since_stop_on_small_batch self data :
  since (stop_on_small_batch self data) = since self.
Proof. unfold stop_on_small_batch. by repeat case_match. Qed.

Lemma since_update_since self data :
  since (update_since self data).1 =
  default (since self) (returned_by data).
Proof.
  unfold update_since, returned_by. destruct data as [d |]; [| done].
  destruct (truthy (last_seq d)) eqn:Ht; simpl; [| done].
  unfold strict_neq. case_bool_decide as Heq; simpl; [by rewrite Heq | done].
Qed.

(** After a turn the cursor is the token the turn returned, if it returned
    one, and is unchanged otherwise. *)
Lemma since_handled self turn :
  since (handled self turn).1.1 = default (since self) (returned turn).
Proof.
  unfold handled, handle, returned.
  destruct (reply turn) as [data | err].
  - unfold onFulfilled.
    pose proof (since_update_since (in_flight self turn) data) as Hs.
    destruct (update_since _ data) as [s1 seqs].
    destruct (emit_batch _ data _) as [acts nxt]. simpl in *.
    rewrite since_stop_on_small_batch, Hs.
    unfold in_flight. by destruct (stop_in_flight turn).
  - unfold onRejected, in_flight.
    by destruct (fatal _), (stop_in_flight turn).
Qed.

Lemma since_after_turn self turn :
  since (after_turn self turn) = default (since self) (returned turn).
Proof.
  unfold after_turn. destruct (stop_before_next turn); apply since_handled.
Qed.

(** On well-formed responses, the token a turn returns is the [last_seq] it
    shows. *)
Lemma returned_shown turn : well_formed turn -> returned turn = shown turn.
Proof.
  unfold well_formed, returned, returned_by, shown.
  destruct (reply turn) as [[d |] | err]; [| done ..].
  destruct (last_seq d) as [| | b | n | str] eqn:Hl; intros Hwf; [done | ..];
    by rewrite (Hwf _ eq_refl).
Qed.

Lemma since_after_turns turns : forall self,
  since (foldl after_turn self turns) = last_returned (since self) turns.
Proof.
  induction turns as [| turn turns IH]; intros self; [done |].
  simpl. by rewrite IH, since_after_turn.
Qed.

Lemma tokens_app a b : tokens (a ++ b) = tokens a ++ tokens b.
Proof. apply omap_app. Qed.

Lemma tokens_emitted (l : list Change.t) :
  tokens (map (fun c => Emit (EChange c)) l) = [].
Proof. by induction l. Qed.

(** The only token a handler emits is that of a 'seq' event, when the turn
    returned a token other than the cursor. *)
Lemma handled_tokens self turn :
  tokens (handled self turn).1.2 =
  match returned turn with
  | Some token => if bool_decide (token = since self) then [] else [token]
  | None => []
  end.
Proof.
  unfold handled, handle, returned.
  destruct (reply turn) as [data | err]; [| unfold onRejected; by case_match].
  unfold onFulfilled.
  destruct (update_since _ data) as [s1 seqs] eqn:Hs.
  destruct (emit_batch _ data _) as [acts nxt] eqn:Hb. simpl.
  rewrite !tokens_app.
  assert (tokens (emit_changes data) = []) as ->.
  { unfold emit_changes. case_match; [apply tokens_emitted | done]. }
  assert (tokens acts = []) as ->.
  { revert Hb. unfold emit_batch, pace. repeat case_match; by intros [= <- <-]. }
  rewrite app_nil_r. simpl.
  revert Hs. unfold update_since, returned_by, strict_neq, in_flight.
  destruct data as [d |]; [| by intros [= <- <-]].
  replace (since (if stop_in_flight turn then stop self else self))
    with (since self) by (by destruct (stop_in_flight turn)).
  destruct (truthy (last_seq d)); simpl; [| by intros [= <- <-]].
  case_bool_decide; simpl; by intros [= <- <-].
Qed.

Lemma tokens_cons_request ts req acts :
  tokens (Request ts req :: acts) = tokens acts.
Proof. reflexivity. Qed.

Lemma chain_tail {A} (R : A -> A -> Prop) x l : chain R (x :: l) -> chain R l.
Proof. by intros [_ H]. Qed.

Lemma chain_cons {A} (R : A -> A -> Prop) x y l :
  R x y -> chain R (y :: l) -> chain R (x :: y :: l).
Proof. by split. Qed.

Lemma chain_head {A} (R : A -> A -> Prop) x y l : chain R (x :: y :: l) -> R x y.
Proof. by intros [H _]. Qed.

(** If the tokens the server returns never go down from the cursor the run
    starts with, neither do the tokens of the 'seq' and 'end' events. *)
Lemma tokens_chain (le : JsVal -> JsVal -> Prop) opts script :
  (forall x, le x x) ->
  forall self now,
    chain le (since self :: omap returned script) ->
    chain le (since self :: tokens (doWhilst opts self now script).1).
Proof.
  intros Hrefl. induction script as [| turn script IH]; intros self now Hch.
  - done.
  - rewrite doWhilst_cons, prepend_fst, tokens_app, tokens_cons_request,
      handled_tokens.
    pose proof (since_after_turn self turn) as Hsince.
    assert (Hrest : chain le (since (after_turn self turn) ::
      tokens match next_call turn (handled self turn).2 with
             | Some (err, d) =>
                 if truthy err then finish (after_turn self turn)
                 else if continue (after_turn self turn)
                      then doWhilst opts (after_turn self turn)
                             (now + latency turn + d) script
                      else finish (after_turn self turn)
             | None => ([], AwaitingAck (handled self turn).1.1)
             end.1)).
    { assert (Hch' : chain le (since (after_turn self turn) :: omap returned script)).
      { rewrite Hsince. simpl omap in Hch.
        destruct (returned turn) as [token |]; [| exact Hch].
        exact (chain_tail _ _ _ Hch). }
      destruct (next_call turn (handled self turn).2) as [[err d] |]; [| done].
      destruct (truthy err); [simpl; auto |].
      destruct (continue (after_turn self turn)); [| simpl; auto].
      by apply IH. }
    rewrite Hsince in Hrest.
    simpl omap in Hch.
    destruct (returned turn) as [token |]; [| exact Hrest].
    simpl default in Hrest.
    case_bool_decide as Heq; [by rewrite <- Heq |].
    apply chain_cons; [| exact Hrest].
    exact (chain_head _ _ _ _ Hch).
Qed.

Lemma token_in_tokens acts e token :
  Emit e ∈ acts -> e = ESeq token \/ e = EEnd token -> token ∈ tokens acts.
Proof.
  intros He Hk. apply list_elem_of_omap. exists (Emit e). split; [done |].
  by destruct Hk as [-> | ->].
Qed.

(** A token emitted by a handler is the cursor it leaves behind. *)
Lemma handled_token_event self turn e token :
  Emit e ∈ (handled self turn).1.2 ->
  e = ESeq token \/ e = EEnd token ->
  token = since (after_turn self turn).
Proof.
  intros He Hk. pose proof (token_in_tokens _ _ _ He Hk) as Hin.
  rewrite handled_tokens in Hin. rewrite since_after_turn.
  destruct (returned turn) as [t |]; [| by apply elem_of_nil in Hin].
  case_bool_decide; [by apply elem_of_nil in Hin |].
  by apply list_elem_of_singleton in Hin.
Qed.

(** Every token carried by a 'seq' or an 'end' event is, when the event is
    emitted, the last token returned by the responses received so far (one
    for each request issued before the event), or the cursor the run started
    with when none has returned a token. *)
Lemma token_at_emission opts script : forall self now pre e post token,
  (doWhilst opts self now script).1 = pre ++ Emit e :: post ->
  e = ESeq token \/ e = EEnd token ->
  token = last_returned (since self) (take (length (requests pre)) script).
Proof.
  induction script as [| turn script IH]; intros self now pre e post token Htr Hk.
  - destruct pre as [| a [| b pre]]; discriminate Htr.
  - rewrite doWhilst_cons, prepend_fst in Htr.
    destruct pre as [| a pre]; [discriminate Htr |].
    injection Htr as <- Htr.
    rewrite requests_cons_request. simpl length. simpl take.
    change (last_returned (since self) (turn :: ?l))
      with (last_returned (default (since self) (returned turn)) l).
    rewrite <- since_after_turn.
    set (tail := match next_call turn (handled self turn).2 with
                 | Some (err, d) =>
                     if truthy err then finish (after_turn self turn)
                     else if continue (after_turn self turn)
                          then doWhilst opts (after_turn self turn)
                                 (now + latency turn + d) script
                          else finish (after_turn self turn)
                 | None => ([], AwaitingAck (handled self turn).1.1)
                 end) in Htr.
    assert (Htail : forall k, tail.1 = k ++ Emit e :: post ->
      token = last_returned (since (after_turn self turn))
                (take (length (requests k)) script)).
    { intros k Hk'. subst tail.
      assert (Hfin : (finish (after_turn self turn)).1 = k ++ Emit e :: post ->
        token = last_returned (since (after_turn self turn))
                  (take (length (requests k)) script)).
      { simpl. intros Hf. destruct k as [| a [| b k]]; [| discriminate Hf ..].
        injection Hf as <- _. by destruct Hk as [[=] | [= ->]]. }
      destruct (next_call turn (handled self turn).2) as [[err d] |].
      - destruct (truthy err); [by apply Hfin |].
        destruct (continue (after_turn self turn)); [| by apply Hfin].
        by eapply IH.
      - by destruct k. }
    symmetry in Htr. apply app_eq_inv in Htr as [(k & -> & Hk') | (k & Hacts & Hk')].
    + rewrite requests_app, handled_requests. by apply Htail.
    + destruct k as [| a k].
      * rewrite app_nil_r in Hacts. subst pre. rewrite handled_requests.
        apply (Htail []). exact (eq_sym Hk').
      * injection Hk' as <- _.
        assert (Hreq : requests pre = []).
        { pose proof (handled_requests self turn) as Hr.
          rewrite Hacts, requests_app in Hr. by apply app_eq_nil in Hr as [? _]. }
        rewrite Hreq. simpl.
        eapply handled_token_event; [| exact Hk].
        rewrite Hacts. apply elem_of_app. right. by left.
Qed.

End LongPoll.

(** * Properties of spool, and the cursor over both pipelines *)

Section Spool.
Import ChangesReader.
Variable liner : list string -> list string.
Variable JSON_parse : string -> option Change.t.

Local Abbreviation spool := (ChangesReader.spool liner JSON_parse).

Lemma events_map_Emit evs : events (map Emit evs) = evs.
Proof. induction evs as [| e evs IH]; simpl; [done |]. by f_equal. Qed.

Lemma tokens_batches (bl : list (list Change.t)) :
  tokens (map Emit (map (fun data => EBatch data false) bl)) = [].
Proof. by induction bl. Qed.

Lemma batches_snoc_end evs token : batches (evs ++ [EEnd token]) = batches evs.
Proof. rewrite batches_app. simpl. by rewrite app_nil_r. Qed.

(** (C10) When the promise of the request of [spool] is rejected, whatever
    the error, [spool] has sent its request and does nothing else: no event
    at all, so neither 'error' nor 'end', is emitted on the emitter it
    returned, which is the one of the session. *)
Theorem spool_rejection_unhandled (opts : Opts.t) (self : t) (now : Z)
    (err : Err) :
  let out := spool opts self now (SpoolRejected err) in
  out.1.2 = ee out.1.1 /\
  out.2 = [Request now (spool_request out.1.1)] /\
  events out.2 = [].
Proof. done. Qed.

(** The 'end' event of [spool] carries the accumulator's last sequence
    token: the [seq] of the last record delivered, ['0'] if there was none. *)
Lemma spool_end_token opts self now chunks :
  let acts := (spool opts self now (SpoolStream chunks)).2 in
  tokens acts =
    [from_option Change.seq (JStr "0") (last (concat (batches (events acts))))].
Proof.
  unfold ChangesReader.spool.
  set (cp := ChangeProcessor.create _).
  pose proof (pipe_lastSeq JSON_parse cp (liner chunks)) as Hl.
  pose proof (pipe_only_batches JSON_parse cp (liner chunks)) as Hb.
  destruct (ChangeProcessor.pipe JSON_parse cp (liner chunks)) as [cp' evs].
  simpl in *.
  rewrite events_app, events_map_Emit, tokens_app.
  rewrite <- Hb at 1. rewrite tokens_batches. simpl.
  by rewrite batches_snoc_end, Hl.
Qed.

(** (C7) The cursor and the tokens reported.
    - A turn of the long-poll loop leaves [since] as it was, or sets it to
      the [last_seq] of the response just received; after any number of
      turns it is the last token returned, or the cursor the run started
      with when none was.
    - Every 'seq' and 'end' event carries, when it is emitted, the last
      token returned by the responses received until then (failing which,
      the starting cursor).
    - For any reflexive order in which the server's tokens never go down
      from the starting cursor, the tokens of the 'seq' and 'end' events
      never go down either.
    - The accumulator's [lastSeq] is the [seq] of the last record it has
      delivered in a batch, and that is what the 'end' event of [spool]
      carries. *)
Theorem cursor_follows_returned_tokens (le : JsVal -> JsVal -> Prop) :
  (forall self turn,
     since (after_turn self turn) = since self \/
     exists d, reply turn = Fulfilled (Some d) /\
               since (after_turn self turn) = last_seq d) /\
  (forall self turns,
     since (foldl after_turn self turns) = last_returned (since self) turns) /\
  (forall opts self now script pre e post token,
     (doWhilst opts self now script).1 = pre ++ Emit e :: post ->
     e = ESeq token \/ e = EEnd token ->
     token = last_returned (since self) (take (length (requests pre)) script)) /\
  (forall opts self now script,
     (forall x, le x x) ->
     chain le (since self :: omap returned script) ->
     chain le (since self :: tokens (doWhilst opts self now script).1)) /\
  (forall cp lines,
     ChangeProcessor.lastSeq (ChangeProcessor.pipe JSON_parse cp lines).1 =
     from_option Change.seq (ChangeProcessor.lastSeq cp)
       (last (concat (batches (ChangeProcessor.pipe JSON_parse cp lines).2)))) /\
  (forall opts self now chunks,
     let acts := (spool opts self now (SpoolStream chunks)).2 in
     tokens acts =
       [from_option Change.seq (JStr "0")
          (last (concat (batches (events acts))))]).
Proof.
  split; [| split; [| split; [| split; [| split]]]].
  - intros self turn. rewrite since_after_turn. unfold returned, returned_by.
    destruct (reply turn) as [[d |] | err]; [| by left ..].
    destruct (truthy (last_seq d)); [right; by exists d | by left].
  - intros self turns. apply since_after_turns.
  - intros opts self now script. apply token_at_emission.
  - intros opts self now script Hrefl. by apply tokens_chain.
  - apply pipe_lastSeq.
  - apply spool_end_token.
Qed.

End Spool.

(** * The properties on the sample inputs *)

Section Samples.
Import ChangesReader.

Lemma unparsed_line_discarded_witness :
  let cp := ChangeProcessor.create 2 in
  Sample.parse (ChangeProcessor.strip "],") = None /\
  ((ChangeProcessor._transform Sample.parse cp "],").2 = [] /\
   errors (ChangeProcessor._transform Sample.parse cp "],").2 = [] /\
   ChangeProcessor.buffer (ChangeProcessor._transform Sample.parse cp "],").1 =
     ChangeProcessor.buffer cp /\
   (ChangeProcessor._transform Sample.parse cp "],").1 = cp /\
   forall lines,
     ChangeProcessor.write Sample.parse cp ("]," :: lines) =
     ChangeProcessor.write Sample.parse cp lines).
Proof.
  split; [reflexivity |].
  apply (unparsed_line_discarded Sample.parse (ChangeProcessor.create 2) "],").
  reflexivity.
Defined.

Lemma accumulator_batches_witness :
  0 < 2 /\
  exists bl : list (list Change.t),
    (ChangeProcessor.pipe Sample.parse (ChangeProcessor.create 2) Sample.feed).2 =
      map (fun b => EBatch b false) bl /\
    Z.of_nat (length bl) =
      (Z.of_nat (length (records Sample.parse Sample.feed)) + 2 - 1) / 2 /\
    (forall i b, bl !! i = Some b -> (S i < length bl)%nat ->
                 Z.of_nat (length b) = 2) /\
    (forall b, last bl = Some b -> 0 < Z.of_nat (length b) <= 2) /\
    concat bl = records Sample.parse Sample.feed /\
    (forall r, last (records Sample.parse Sample.feed) = Some r ->
       ChangeProcessor.lastSeq
         (ChangeProcessor.pipe Sample.parse (ChangeProcessor.create 2) Sample.feed).1 =
       Change.seq r).
Proof.
  split; [lia |].
  apply (accumulator_batches Sample.parse 2 Sample.feed). lia.
Defined.

Lemma fatal_error_ends_run_witness :
  let turn := Sample.failure (Some 401) 20 in
  let err := {| response_status := Some 401; reason := JUndefined |} in
  let script := [Sample.answer [Sample.change 1] (JStr "1-a") 20] in
  reply turn = Rejected err /\
  400 <= statusCode err < 500 /\
  statusCode err <> 429 /\
  (continue (handled Sample.reader turn).1.1 = false /\
   doWhilst no_opts Sample.reader 0 (turn :: script) =
     ([Request 0 (request Sample.reader no_opts);
       Emit (EError (statusCode err));
       Emit (EEnd (since Sample.reader))],
      Ended (setDefaults Sample.reader))).
Proof.
  intros turn err script.
  assert (H1 : reply turn = Rejected err) by reflexivity.
  assert (H2 : 400 <= statusCode err < 500) by (unfold err, statusCode; simpl; lia).
  assert (H3 : statusCode err <> 429) by (unfold err, statusCode; simpl; lia).
  split; [exact H1 |]. split; [exact H2 |]. split; [exact H3 |].
  exact (fatal_error_ends_run no_opts Sample.reader 0 turn script err H1 H2 H3).
Defined.

Lemma recoverable_error_retries_witness :
  let turn := Sample.failure (Some 503) 20 in
  let err := {| response_status := Some 503; reason := JUndefined |} in
  let script := [Sample.answer [Sample.change 1] (JStr "1-a") 20] in
  reply turn = Rejected err /\
  (500 <= statusCode err \/ statusCode err = 429 \/ response_status err = None) /\
  continue Sample.reader = true /\
  stop_in_flight turn = false /\
  stop_before_next turn = false /\
  doWhilst no_opts Sample.reader 0 (turn :: script) =
    prepend [Request 0 (request Sample.reader no_opts); Emit (EError (statusCode err))]
      (doWhilst no_opts Sample.reader (0 + latency turn) script) /\
  requests (doWhilst no_opts Sample.reader 0 (turn :: script)).1 !! 1%nat =
    Some (0 + latency turn, request Sample.reader no_opts).
Proof.
  intros turn err script.
  assert (H1 : reply turn = Rejected err) by reflexivity.
  assert (H2 : 500 <= statusCode err \/ statusCode err = 429 \/
               response_status err = None)
    by (left; unfold err, statusCode; simpl; lia).
  split; [exact H1 |]. split; [exact H2 |]. do 3 (split; [reflexivity |]).
  apply (recoverable_error_retries no_opts Sample.reader 0 turn script err H1 H2);
    reflexivity.
Defined.

Lemma empty_response_pacing_witness :
  let turn := Sample.answer [] (JStr "7-g") 20 in
  let data := Some {| results := Some []; last_seq := JStr "7-g" |} in
  let script := [Sample.answer [] (JStr "7-g") 20] in
  let ts := 60000 in
  let req := request (after_turn Sample.reader turn) no_opts in
  reply turn = Fulfilled data /\
  has_results data = false /\
  requests (doWhilst no_opts Sample.reader 0 (turn :: script)).1 !! 1%nat =
    Some (ts, req) /\
  (ts = 0 + latency turn +
        (if latency turn >? timeout Sample.reader then 0
         else timeout Sample.reader - latency turn) /\
   timeout Sample.reader <= ts - 0 /\
   exists seqs,
     (forall a, a ∈ seqs -> exists token, a = Emit (ESeq token)) /\
     doWhilst no_opts Sample.reader 0 (turn :: script) =
       prepend (Request 0 (request Sample.reader no_opts) :: seqs ++
                (if latency turn >? timeout Sample.reader then []
                 else [SetTimeout (timeout Sample.reader - latency turn)]))
         (doWhilst no_opts (after_turn Sample.reader turn) ts script)).
Proof.
  intros turn data script ts req.
  assert (H1 : reply turn = Fulfilled data) by reflexivity.
  assert (H2 : has_results data = false) by reflexivity.
  assert (H3 : requests (doWhilst no_opts Sample.reader 0 (turn :: script)).1
                 !! 1%nat = Some (ts, req)) by reflexivity.
  split; [exact H1 |]. split; [exact H2 |]. split; [exact H3 |].
  exact (proj1 (empty_response_pacing no_opts Sample.reader 0 turn script data
                  H1 H2) ts req H3).
Defined.

(** (C5, as stated) In a bounded run an empty response is not followed by a
    wait of [timeout - elapsed] and a next request, although [elapsed] is
    within [timeout]: no timer is armed, no further request is issued, and
    the run has ended. *)
Lemma empty_response_pacing_counterexample :
  let turn := Sample.answer [] (JStr "7-g") 20 in
  let script := [Sample.answer [] (JStr "7-g") 20] in
  let r := doWhilst no_opts Sample.bounded_reader 0 (turn :: script) in
  reply turn = Fulfilled (Some {| results := Some []; last_seq := JStr "7-g" |}) /\
  latency turn <= timeout Sample.bounded_reader /\
  requests (fst r) !! 1%nat = None /\
  ~ In (SetTimeout (timeout Sample.bounded_reader - latency turn)) (fst r) /\
  snd r = Ended (setDefaults Sample.bounded_reader).
Proof.
  intros turn script r.
  split; [reflexivity |]. split; [by vm_compute |]. split; [reflexivity |].
  split; [| reflexivity].
  intros Hin. simpl in Hin.
  destruct Hin as [Hin | [Hin | [Hin | []]]]; discriminate Hin.
Qed.

Lemma get_bounded_run_witness :
  let turn := Sample.answer [Sample.change 1; Sample.change 2] (JStr "2-b") 20 in
  let script := [Sample.answer [Sample.change 3] (JStr "3-c") 20] in
  stopOnEmptyChanges Sample.bounded_reader = true /\
  Z.of_nat (length [Sample.change 1; Sample.change 2]) <
    batchSize Sample.bounded_reader /\
  continue (handled Sample.bounded_reader turn).1.1 = false /\
  requests (doWhilst no_opts Sample.bounded_reader 0 (turn :: script)).1 =
    [(0, request Sample.bounded_reader no_opts)].
Proof.
  intros turn script.
  assert (H1 : stopOnEmptyChanges Sample.bounded_reader = true) by reflexivity.
  assert (H2 : Z.of_nat (length [Sample.change 1; Sample.change 2]) <
               batchSize Sample.bounded_reader) by (simpl; lia).
  split; [exact H1 |]. split; [exact H2 |].
  destruct (proj2 (proj2 get_bounded_run) no_opts Sample.bounded_reader 0 turn
              script [Sample.change 1; Sample.change 2] (JStr "2-b")
              H1 eq_refl H2) as (Hc & _ & _ & Hreq).
  split; [exact Hc | exact Hreq].
Defined.

Lemma start_while_started_witness :
  started Sample.started_reader = true /\
  start no_opts Sample.started_reader =
    (Sample.started_reader, ee Sample.started_reader, false) /\
  get no_opts Sample.started_reader =
    (set_stopOnEmptyChanges true Sample.started_reader,
     ee Sample.started_reader, false).
Proof.
  split; [reflexivity |].
  apply (start_while_started no_opts Sample.started_reader). reflexivity.
Defined.

(** (C8, as stated) [get] on a started session is not a no-op on the state
    of the session: a session begun by [start], unbounded, is left with
    [stopOnEmptyChanges] set. *)
Lemma get_while_started_counterexample :
  started Sample.started_reader = true /\
  stopOnEmptyChanges Sample.started_reader = false /\
  stopOnEmptyChanges (get no_opts Sample.started_reader).1.1 = true /\
  get no_opts Sample.started_reader <>
    (Sample.started_reader, ee Sample.started_reader, false).
Proof.
  repeat split; try reflexivity.
  intros H. apply (f_equal (fun r => stopOnEmptyChanges r.1.1)) in H.
  discriminate H.
Qed.

Lemma token_le_refl x : Sample.token_le x x.
Proof. destruct x; simpl; (reflexivity || lia). Defined.

Lemma cursor_follows_returned_tokens_witness :
  let self := (start (Sample.since_opts (JNum 0)) Sample.reader).1.1 in
  let opts := Sample.since_opts (JNum 0) in
  let script := [Sample.answer [Sample.change 1; Sample.change 2] (JNum 2) 20;
                 Sample.failure (Some 503) 20;
                 Sample.answer [] (JNum 2) 20;
                 Sample.answer [Sample.change 5] (JNum 5) 20;
                 Sample.failure (Some 401) 20] in
  (forall x, Sample.token_le x x) /\
  chain Sample.token_le (since self :: omap returned script) /\
  chain Sample.token_le (since self :: tokens (doWhilst opts self 0 script).1) /\
  tokens (doWhilst opts self 0 script).1 = [JNum 2; JNum 5; JNum 5].
Proof.
  intros self opts script.
  assert (H1 : chain Sample.token_le (since self :: omap returned script)).
  { simpl. repeat (split; try lia). }
  split; [exact token_le_refl |]. split; [exact H1 |]. split; [| reflexivity].
  exact (proj1 (proj2 (proj2 (proj2
           (cursor_follows_returned_tokens Sample.liner Sample.parse
              Sample.token_le))))
         opts self 0 script token_le_refl H1).
Defined.

(** The sample stream, in batches of two: two batches, and the last token. *)
Example feed_in_batches_of_two :
  let out := ChangeProcessor.pipe Sample.parse (ChangeProcessor.create 2)
               Sample.feed in
  map (map Change.seq) (batches out.2) =
    [[JStr "1-a"; JStr "2-b"]; [JStr "3-c"]] /\
  ChangeProcessor.lastSeq out.1 = JStr "3-c".
Proof. split; reflexivity. Qed.

(** A bounded run: a full batch, then a short one, then the end. *)
Example bounded_run_events :
  let opts := Opts.Build (Some 2) None (Some (JStr "0")) None None None None
                None None None None None in
  let script := [Sample.answer [Sample.change 1; Sample.change 2] (JStr "2-b") 20;
                 Sample.answer [Sample.change 3] (JStr "3-c") 20;
                 Sample.answer [Sample.change 4] (JStr "4-d") 20] in
  (fun r => (events r.1, length (requests r.1))) <$>
    run get opts Sample.reader 0 script =
  Some ([EChange (Sample.change 1); EChange (Sample.change 2);
         ESeq (JStr "2-b");
         EBatch [Sample.change 1; Sample.change 2] false;
         EChange (Sample.change 3);
         ESeq (JStr "3-c");
         EBatch [Sample.change 3] false;
         EEnd (JStr "3-c")], 2%nat).
Proof. reflexivity. Qed.

(** A bounded run that finds the feed up to date ends at once: outside
    [wait] mode the handler does not pace a loop that is not to continue
    (line 144), so no timer is armed and no second request goes out. *)
Example bounded_run_ends_on_empty_response :
  let script := [Sample.answer [] (JStr "7-g") 20;
                 Sample.answer [] (JStr "7-g") 20] in
  (doWhilst no_opts Sample.bounded_reader 0 script).1 =
    [Request 0 (request Sample.bounded_reader no_opts);
     Emit (ESeq (JStr "7-g"));
     Emit (EEnd (JStr "7-g"))].
Proof. reflexivity. Qed.

(** A session told to stop while its request was failing reports the error
    and ends: the continuation test of the loop is what lets a retry go
    out. *)
Example stopped_run_does_not_retry :
  let script := [Sample.stopped_failure (Some 503) 20;
                 Sample.answer [Sample.change 1] (JStr "1-a") 20] in
  (doWhilst no_opts Sample.reader 0 script).1 =
    [Request 0 (request Sample.reader no_opts);
     Emit (EError 503);
     Emit (EEnd (JStr "now"))].
Proof. reflexivity. Qed.

(** An unbounded run: three polls, a failure between two answers, the
    request after the failure carrying the cursor the failure found. *)
Example unbounded_run_requests :
  let script := [Sample.answer [Sample.change 1] (JStr "1-a") 20;
                 Sample.failure None 30;
                 Sample.answer [] (JStr "1-a") 40] in
  map (fun r => (r.1, params r.2 !! "since"))
      (requests (doWhilst no_opts Sample.reader 0 script).1) =
    [(0, Some (JStr "now")); (20, Some (JStr "1-a"));
     (50, Some (JStr "1-a")); (60050, Some (JStr "1-a"))].
Proof. reflexivity. Qed.

End Samples.

(** * Further properties of the batch accumulator *)

Section AccumulatorMore.
Variable JSON_parse : string -> option Change.t.

Local Abbreviation _transform := (ChangeProcessor._transform JSON_parse).
Local Abbreviation write := (ChangeProcessor.write JSON_parse).
Local Abbreviation pipe := (ChangeProcessor.pipe JSON_parse).

Lemma string_get_snoc (s : string) (c : Ascii.ascii) :
  String.get (String.length s) (s ++ String c "")%string = Some c.
Proof. induction s as [| a s IH]; simpl; [done | exact IH]. Qed.

Lemma string_length_snoc (s : string) (c : Ascii.ascii) :
  String.length (s ++ String c "")%string = S (String.length s).
Proof. induction s as [| a s IH]; simpl; [done | by rewrite IH]. Qed.

Lemma string_substring_snoc (s t : string) :
  String.substring 0 (String.length s) (s ++ t)%string = s.
Proof.
  induction s as [| a s IH]; simpl; [by destruct t | by rewrite IH].
Qed.

(** (X1) Stripping undoes the separator the server puts after a record: a
    line with a comma appended strips back to the line, whatever the line
    is, so that of several trailing commas exactly one goes. *)
Theorem strip_appended_comma (line : string) :
  ChangeProcessor.strip (line ++ ",")%string = line /\
  ChangeProcessor.strip (line ++ ",,")%string = (line ++ ",")%string.
Proof.
  assert (H : forall s, ChangeProcessor.strip (s ++ ",")%string = s).
  { intros s. unfold ChangeProcessor.strip.
    change ","%string with (String (Ascii.ascii_of_nat 44) "").
    rewrite string_length_snoc. simpl Nat.sub. rewrite Nat.sub_0_r.
    rewrite string_get_snoc, Ascii.eqb_refl.
    apply string_substring_snoc. }
  split; [apply H |].
  replace (line ++ ",,")%string with ((line ++ ",") ++ ",")%string; [apply H |].
  induction line as [| a s IH]; [done |].
  change (String a ((s ++ ",") ++ ",")%string = String a (s ++ ",,")%string).
  by f_equal.
Qed.

Lemma transform_conserves cp chunk :
  concat (batches (_transform cp chunk).2) ++
    ChangeProcessor.buffer (_transform cp chunk).1 =
  ChangeProcessor.buffer cp ++
    option_list (JSON_parse (ChangeProcessor.strip chunk)) /\
  ChangeProcessor.batchSize (_transform cp chunk).1 = ChangeProcessor.batchSize cp.
Proof.
  unfold ChangeProcessor._transform.
  destruct (JSON_parse _) as [j |]; simpl; [| by rewrite app_nil_r].
  destruct (_ >=? _); [| done].
  unfold ChangeProcessor.splice0, ChangeProcessor.emit.
  destruct (last (take _ _)); simpl; by rewrite app_nil_r, take_drop.
Qed.

Lemma write_conserves lines : forall cp,
  concat (batches (write cp lines).2) ++ ChangeProcessor.buffer (write cp lines).1 =
  ChangeProcessor.buffer cp ++ records JSON_parse lines /\
  ChangeProcessor.batchSize (write cp lines).1 = ChangeProcessor.batchSize cp.
Proof.
  induction lines as [| chunk lines IH]; intros cp.
  - simpl. by rewrite app_nil_r.
  - rewrite write_cons. simpl fst; simpl snd.
    destruct (IH (_transform cp chunk).1) as [Hc Hb].
    destruct (transform_conserves cp chunk) as [Hc1 Hb1].
    split; [| by rewrite Hb, Hb1].
    rewrite batches_app, concat_app, <- app_assoc, Hc, app_assoc, Hc1.
    rewrite <- app_assoc. f_equal. unfold records. simpl.
    by destruct (JSON_parse _).
Qed.

Lemma pipe_conserves cp lines :
  concat (batches (pipe cp lines).2) =
    ChangeProcessor.buffer cp ++ records JSON_parse lines /\
  ChangeProcessor.buffer (pipe cp lines).1 = [].
Proof.
  rewrite pipe_write_flush. simpl fst; simpl snd.
  destruct (write_conserves lines cp) as [Hc _].
  rewrite flush_buffer, batches_app, concat_app.
  destruct (last (ChangeProcessor.buffer (write cp lines).1)) as [c |] eqn:Hl; simpl.
  - by rewrite app_nil_r.
  - apply last_None in Hl. rewrite Hl in Hc |- *. by rewrite app_nil_r in *.
Qed.

(** (X2) Whatever the batch size, zero or negative included, and whatever
    the accumulator already holds, a stream that ends has had every record
    delivered exactly once and in order: the batches laid end to end are the
    records buffered before followed by the records of the stream, and the
    buffer is left empty. *)
Theorem pipe_delivers_everything (cp : ChangeProcessor.t) (lines : list string) :
  concat (batches (pipe cp lines).2) =
    ChangeProcessor.buffer cp ++ records JSON_parse lines /\
  ChangeProcessor.buffer (pipe cp lines).1 = [].
Proof. apply pipe_conserves. Qed.

(** (X3) With a positive batch size the accumulator never holds a full
    batch between two lines: after any number of lines its buffer is shorter
    than [batchSize]. *)
Theorem buffer_below_batch_size (batchSize : Z) (lines : list string) :
  0 < batchSize ->
  Z.of_nat (length (ChangeProcessor.buffer
                      (write (ChangeProcessor.create batchSize) lines).1))
    < batchSize.
Proof.
  intros Hpos.
  destruct (write_batches JSON_parse (Z.to_nat batchSize) lines
              (ChangeProcessor.create batchSize))
    as (bl & _ & _ & _ & Hlen & _); [lia | simpl; lia | simpl; lia |].
  lia.
Qed.

Lemma transform_no_batch_size cp chunk :
  ChangeProcessor.batchSize cp <= 0 ->
  _transform cp chunk =
  match JSON_parse (ChangeProcessor.strip chunk) with
  | Some j =>
      (ChangeProcessor.Build (ChangeProcessor.buffer cp ++ [j])
         (ChangeProcessor.lastSeq cp) (ChangeProcessor.batchSize cp),
       [EBatch [] false])
  | None => (cp, [])
  end.
Proof.
  intros Hbs. unfold ChangeProcessor._transform.
  destruct (JSON_parse _) as [j |]; [| done].
  replace (_ >=? _) with true by (symmetry; apply Z.geb_le; lia).
  unfold ChangeProcessor.splice0, ChangeProcessor.emit.
  by replace (Z.to_nat (ChangeProcessor.batchSize cp)) with 0%nat by lia.
Qed.

(** (X4) With a batch size of zero or less nothing is delivered while the
    stream lasts: each record that parses is answered by a 'batch' event
    with an empty list (the read of its last [seq] throws and is swallowed,
    so [lastSeq] stays), the records pile up in the buffer, and the end of
    the stream delivers them all in one batch. *)
Theorem no_batch_size_delivers_at_end (cp : ChangeProcessor.t)
    (lines : list string) :
  ChangeProcessor.batchSize cp <= 0 ->
  (write cp lines).2 =
    replicate (length (records JSON_parse lines)) (EBatch [] false) /\
  ChangeProcessor.buffer (write cp lines).1 =
    ChangeProcessor.buffer cp ++ records JSON_parse lines /\
  ChangeProcessor.lastSeq (write cp lines).1 = ChangeProcessor.lastSeq cp /\
  (pipe cp lines).2 =
    replicate (length (records JSON_parse lines)) (EBatch [] false) ++
    match ChangeProcessor.buffer cp ++ records JSON_parse lines with
    | [] => []
    | all => [EBatch all false]
    end.
Proof.
  intros Hbs.
  assert (Hw : forall lines cp, ChangeProcessor.batchSize cp <= 0 ->
    (write cp lines).2 =
      replicate (length (records JSON_parse lines)) (EBatch [] false) /\
    ChangeProcessor.buffer (write cp lines).1 =
      ChangeProcessor.buffer cp ++ records JSON_parse lines /\
    ChangeProcessor.lastSeq (write cp lines).1 = ChangeProcessor.lastSeq cp).
  { clear. induction lines as [| chunk lines IH]; intros cp Hbs.
    - simpl. by rewrite app_nil_r.
    - rewrite write_cons, (transform_no_batch_size _ _ Hbs).
      unfold records. simpl omap. fold (records JSON_parse lines).
      destruct (JSON_parse _) as [j |]; simpl fst; simpl snd.
      + destruct (IH (ChangeProcessor.Build (ChangeProcessor.buffer cp ++ [j])
                        (ChangeProcessor.lastSeq cp) (ChangeProcessor.batchSize cp)))
          as (He & Hb & Hl); [done |].
        rewrite He, Hb, Hl. simpl. by rewrite <- app_assoc.
      + by apply IH. }
  destruct (Hw lines cp Hbs) as (He & Hb & Hl).
  split; [exact He |]. split; [exact Hb |]. split; [exact Hl |].
  rewrite pipe_write_flush. simpl snd. rewrite He. f_equal.
  rewrite flush_buffer, Hb.
  destruct (ChangeProcessor.buffer cp ++ records JSON_parse lines)
    as [| r all _] using rev_ind; [done |].
  rewrite last_snoc. simpl. by destruct all.
Qed.

End AccumulatorMore.

(** * Further properties of the long-poll loop *)

Section LongPollMore.
Import ChangesReader.

(** *** What a turn leaves alone *)

Lemma same_config_refl self : same_config self self.
Proof. exists (continue self), (since self). by destruct self. Qed.

Lemma same_config_set_since self s v :
  same_config self s -> same_config self (set_since v s).
Proof. intros (c & v' & ->). by exists c, v. Qed.

Lemma same_config_set_continue self s c :
  same_config self s -> same_config self (set_continue c s).
Proof. intros (c' & v & ->). by exists c, v. Qed.

Lemma same_config_trans self s s' :
  same_config self s -> same_config s s' -> same_config self s'.
Proof. intros (c & v & ->) (c' & v' & ->). by exists c', v'. Qed.

Lemma same_config_handled self turn : same_config self (handled self turn).1.1.
Proof.
  assert (Hin : same_config self (in_flight self turn)).
  { unfold in_flight. destruct (stop_in_flight turn);
      [apply same_config_set_continue |]; apply same_config_refl. }
  unfold handled, handle. destruct (reply turn) as [data | err].
  - unfold onFulfilled.
    assert (Hup : same_config self (update_since (in_flight self turn) data).1).
    { unfold update_since. destruct data as [d |]; [| done].
      destruct (truthy _ && _); [by apply same_config_set_since | done]. }
    destruct (update_since _ data) as [s1 seqs].
    destruct (emit_batch _ data _) as [acts nxt]. simpl in *.
    unfold stop_on_small_batch.
    repeat case_match; try done; by apply same_config_set_continue.
  - unfold onRejected. destruct (fatal _); [by apply same_config_set_continue | done].
Qed.

Lemma same_config_after_turn self turn : same_config self (after_turn self turn).
Proof.
  unfold after_turn. destruct (stop_before_next turn);
    [apply same_config_set_continue |]; apply same_config_handled.
Qed.

Lemma same_config_after_turns turns : forall self,
  same_config self (foldl after_turn self turns).
Proof.
  induction turns as [| turn turns IH]; intros self; [apply same_config_refl |].
  simpl. eapply same_config_trans; [apply same_config_after_turn | apply IH].
Qed.

(** A session of the same configuration sends the same request but for the
    cursor, and resets to the same defaults. *)
Lemma same_config_request self s opts :
  same_config self s -> request s opts = request (set_since (since s) self) opts.
Proof. by intros (c & v & ->). Qed.

Lemma same_config_setDefaults self s :
  same_config self s -> setDefaults s = setDefaults self.
Proof. by intros (c & v & ->). Qed.

Lemma same_config_fields self s :
  same_config self s ->
  batchSize s = batchSize self /\ timeout s = timeout self /\
  wait s = wait self /\ stopOnEmptyChanges s = stopOnEmptyChanges self /\
  ee s = ee self.
Proof. by intros (c & v & ->). Qed.

(** Nothing in a turn sets [continue] back to true. *)
Lemma continue_handled self turn :
  continue (handled self turn).1.1 = true ->
  continue self = true /\ stop_in_flight turn = false.
Proof.
  assert (Hin : continue (in_flight self turn) = true ->
                continue self = true /\ stop_in_flight turn = false).
  { unfold in_flight. by destruct (stop_in_flight turn). }
  unfold handled, handle. destruct (reply turn) as [data | err].
  - unfold onFulfilled.
    assert (Hup : continue (update_since (in_flight self turn) data).1 =
                  continue (in_flight self turn)).
    { unfold update_since. destruct data as [d |]; [| done].
      by destruct (truthy _ && _). }
    destruct (update_since _ data) as [s1 seqs].
    destruct (emit_batch _ data _) as [acts nxt]. simpl in *.
    intros Hc. apply Hin. rewrite <- Hup.
    revert Hc. unfold stop_on_small_batch. by repeat case_match.
  - unfold onRejected. by destruct (fatal _).
Qed.

Lemma continue_after_turn_true self turn :
  continue (after_turn self turn) = true ->
  continue self = true /\ stop_in_flight turn = false /\
  stop_before_next turn = false.
Proof.
  intros Hc. destruct (continue_after_turn _ _ Hc) as [Hh Hs].
  destruct (continue_handled _ _ Hh). done.
Qed.

(** *** Reading a run turn by turn

    An observation that reads nothing off a request or an 'end' event, and
    reads off a handler something that depends on the turn alone, reads off
    a run what the turns consumed give, in order. *)
Lemma run_observation {A} (obs : list Action -> list A) (f : Turn -> list A) opts :
  obs [] = [] ->
  (forall a b, obs (a ++ b) = obs a ++ obs b) ->
  (forall ts req, obs [Request ts req] = []) ->
  (forall token, obs [Emit (EEnd token)] = []) ->
  (forall self turn, obs (handled self turn).1.2 = f turn) ->
  forall script self now,
    obs (doWhilst opts self now script).1 =
    concat (map f (consumed (doWhilst opts self now script).1 script)).
Proof.
  intros Hnil Happ Hreq Hend Hh. unfold consumed.
  induction script as [| turn script IH]; intros self now.
  - simpl. apply Hreq.
  - rewrite doWhilst_cons, prepend_fst.
    change (Request now (request self opts) :: ?l)
      with ([Request now (request self opts)] ++ l).
    rewrite <- !app_assoc, !Happ, Hreq, Hh, !requests_app, handled_requests.
    simpl. f_equal.
    destruct (next_call turn (handled self turn).2) as [[err d] |]; [| done].
    destruct (truthy err); [apply Hend |].
    destruct (continue (after_turn self turn)); [apply IH | apply Hend].
Qed.

(** *** Requests *)

Lemma extra_parameters_win_aux (opts : Opts.t) (self : t)
    (q : gmap string JsVal) (k : string) :
  Opts.qs opts = Some q ->
  params (request self opts) !! k =
    match q !! k with
    | Some v => Some v
    | None => params (request self no_opts) !! k
    end.
Proof.
  intros Hq.
  assert (Hp : forall o, params (request self o) =
                 default ∅ (Opts.qs o) ∪ params (request self no_opts)).
  { intros o. unfold request. simpl. by rewrite (left_id_L ∅ (∪)). }
  rewrite Hp, Hq. simpl default. rewrite lookup_union.
  by destruct (q !! k), (params (request self no_opts) !! k).
Qed.

(** (X5) The extra query parameters of [opts.qs] are assigned last: a key
    they name is sent with their value, whatever the reader would have sent
    under it ([since], [limit] and [feed] included), and a key they do not
    name is sent as it is without them. *)
Theorem extra_parameters_win (opts : Opts.t) (self : t)
    (q : gmap string JsVal) (k : string) :
  Opts.qs opts = Some q ->
  params (request self opts) !! k =
    match q !! k with
    | Some v => Some v
    | None => params (request self no_opts) !! k
    end.
Proof. apply extra_parameters_win_aux. Qed.

Lemma request_since_param self :
  params (request self no_opts) !! "since" = Some (since self).
Proof.
  unfold request. simpl. rewrite (left_id_L ∅ (∪)).
  destruct (selector self), (fastChanges self); by simplify_map_eq.
Qed.

(** (X6) Through a run the requests differ in their cursor alone: the
    request issued after any number of turns is the first request with
    [since] replaced by the last token returned until then.  Its [since]
    parameter is that token, unless [opts.qs] names a [since] of its own,
    which is then what every request of the run carries. *)
Theorem requests_follow_cursor (opts : Opts.t) (self : t) (now : Z)
    (script : list Turn) (k : nat) (ts : Z) (req : Req) :
  requests (doWhilst opts self now script).1 !! k = Some (ts, req) ->
  let cursor := last_returned (since self) (take k script) in
  req = request (set_since cursor self) opts /\
  params req !! "since" =
    Some (default cursor (Opts.qs opts ≫= fun q => q !! "since")).
Proof.
  intros Hk cursor.
  destruct (iteration_is_run _ _ _ _ _ _ _ Hk) as [Hreq _].
  assert (Heq : req = request (set_since cursor self) opts).
  { rewrite Hreq.
    rewrite (same_config_request self _ opts (same_config_after_turns _ _)).
    by rewrite since_after_turns. }
  split; [exact Heq |]. rewrite Heq.
  destruct (Opts.qs opts) as [q |] eqn:Hq.
  - rewrite (extra_parameters_win_aux _ _ _ _ Hq), request_since_param.
    simpl. by destruct (q !! "since").
  - replace (request (set_since cursor self) opts)
      with (request (set_since cursor self) no_opts); [apply request_since_param |].
    unfold request. simpl. by rewrite Hq.
Qed.

(** *** Stopping and ending *)

(** A turn after which the loop does not go on: it is the last. *)
Lemma last_turn opts self now turn script :
  continue (after_turn self turn) = false ->
  doWhilst opts self now (turn :: script) =
    prepend (Request now (request self opts) :: (handled self turn).1.2)
      match next_call turn (handled self turn).2 with
      | Some _ => finish (after_turn self turn)
      | None => ([], AwaitingAck (handled self turn).1.1)
      end.
Proof.
  intros Hc. rewrite doWhilst_cons, Hc.
  destruct (next_call turn (handled self turn).2) as [[err d] |]; [| done].
  by destruct (truthy err).
Qed.

(** (X7) [stop()] is cooperative, and a loop always runs once.  In a
    session whose [continue] flag is down when the request goes out
    ([stop()] before [start()]), or that is stopped while the request is in
    flight or before [next] is called, the request in flight is still
    answered for: its 'change' events are those of its response.  But it is
    the only request of the run, which is not left polling. *)
Theorem stop_ends_run (opts : Opts.t) (self : t) (now : Z) (turn : Turn)
    (script : list Turn) :
  continue self = false \/ stop_in_flight turn = true \/
    stop_before_next turn = true ->
  let r := doWhilst opts self now (turn :: script) in
  requests r.1 = [(now, request self opts)] /\
  change_events r.1 = turn_results turn /\
  forall s, r.2 <> InFlight s.
Proof.
  intros Hstop r.
  assert (Hc : continue (after_turn self turn) = false).
  { apply not_true_is_false. intros Hc.
    destruct (continue_after_turn_true _ _ Hc) as (H1 & H2 & H3).
    destruct Hstop as [H | [H | H]]; congruence. }
  subst r. rewrite (last_turn _ _ _ _ _ Hc), prepend_fst, prepend_snd.
  rewrite requests_app, change_events_app, requests_cons_request,
    change_events_cons_request, handled_requests, handled_change_events.
  destruct (next_call turn (handled self turn).2); simpl;
    by rewrite app_nil_r.
Qed.

(** (X8) A run that has ended has reset the session: whatever the options
    and the turns of the run, the session is left as [setDefaults()] leaves
    the one the run began with, so with the default cursor, batch size and
    flags, not started, and with a new emitter. A [start] on it begins a new
    run, and returns that new emitter, not the one the ended run emitted
    on. *)
Theorem run_end_resets (opts : Opts.t) (script : list Turn) (self : t)
    (now : Z) (s : t) :
  (doWhilst opts self now script).2 = Ended s ->
  s = setDefaults self /\
  forall opts', start opts' s = (assign (set_started true s) opts', S (ee self), true).
Proof.
  intros Hend.
  assert (Hs : s = setDefaults self).
  { revert self now Hend.
    induction script as [| turn script IH]; intros self now Hend; [done |].
    rewrite doWhilst_cons, prepend_snd in Hend.
    pose proof (same_config_setDefaults _ _ (same_config_after_turn self turn)) as Hd.
    destruct (next_call turn (handled self turn).2) as [[err d] |]; [| done].
    destruct (truthy err); [injection Hend as <-; exact Hd |].
    destruct (continue (after_turn self turn)).
    - rewrite <- Hd. by eapply IH.
    - injection Hend as <-. exact Hd. }
  split; [exact Hs |]. intros opts'. by rewrite Hs.
Qed.

Lemma end_tokens_app a b : end_tokens (a ++ b) = end_tokens a ++ end_tokens b.
Proof. apply omap_app. Qed.

Lemma end_tokens_emitted (l : list Change.t) :
  end_tokens (map (fun c => Emit (EChange c)) l) = [].
Proof. by induction l. Qed.

(** A handler emits no 'end' event. *)
Lemma handled_end_tokens self turn : end_tokens (handled self turn).1.2 = [].
Proof.
  unfold handled, handle, onFulfilled, onRejected.
  destruct (reply turn) as [data | err]; [| by case_match].
  destruct (update_since _ data) as [self1 seqs] eqn:Hs.
  destruct (emit_batch _ data _) as [acts nxt] eqn:Hb. simpl.
  rewrite !end_tokens_app.
  assert (end_tokens (emit_changes data) = []) as ->.
  { unfold emit_changes. case_match; [apply end_tokens_emitted | done]. }
  assert (end_tokens seqs = []) as ->.
  { revert Hs. unfold update_since. repeat case_match; by intros [= <- <-]. }
  revert Hb. unfold emit_batch, pace. repeat case_match; by intros [= <- <-].
Qed.

(** (X9) The 'end' event is the last thing a run does and it does it once:
    a run that has ended has emitted exactly one 'end' event, after
    everything else; a run that has not (a request outstanding, or a batch
    waiting to be acknowledged) has emitted none. *)
Theorem end_is_last_and_once (opts : Opts.t) (script : list Turn) (self : t)
    (now : Z) :
  let r := doWhilst opts self now script in
  match r.2 with
  | Ended _ =>
      exists pre token, r.1 = pre ++ [Emit (EEnd token)] /\ end_tokens pre = []
  | InFlight _ | AwaitingAck _ => end_tokens r.1 = []
  end.
Proof.
  revert self now. induction script as [| turn script IH]; intros self now; [done |].
  cbv zeta. rewrite doWhilst_cons, prepend_fst, prepend_snd.
  assert (Hfin :
    exists pre token,
      (Request now (request self opts) :: (handled self turn).1.2) ++
        (finish (after_turn self turn)).1 = pre ++ [Emit (EEnd token)] /\
      end_tokens pre = []).
  { exists (Request now (request self opts) :: (handled self turn).1.2),
      (since (after_turn self turn)).
    split; [done |]. simpl. apply handled_end_tokens. }
  destruct (next_call turn (handled self turn).2) as [[err d] |].
  - destruct (truthy err); [exact Hfin |].
    destruct (continue (after_turn self turn)); [| exact Hfin].
    specialize (IH (after_turn self turn) (now + latency turn + d)).
    cbv zeta in IH.
    destruct (doWhilst opts (after_turn self turn) (now + latency turn + d) script).2.
    + destruct IH as (pre & token & -> & Hpre).
      exists ((Request now (request self opts) :: (handled self turn).1.2) ++ pre),
        token.
      split; [by rewrite app_assoc |].
      rewrite end_tokens_app. simpl. by rewrite handled_end_tokens, Hpre.
    + rewrite end_tokens_app. simpl. by rewrite handled_end_tokens, IH.
    + rewrite end_tokens_app. simpl. by rewrite handled_end_tokens, IH.
  - simpl. rewrite app_nil_r. simpl. apply handled_end_tokens.
Qed.

(** *** Errors and batches *)


Lemma batches_events_app a b :
  batches (events (a ++ b)) = batches (events a) ++ batches (events b).
Proof. by rewrite events_app, batches_app. Qed.


Lemma batches_emitted (l : list Change.t) :
  batches (events (map (fun c => Emit (EChange c)) l)) = [].
Proof. by induction l. Qed.

Lemma concat_option_list {A B} (f : A -> option B) (l : list A) :
  concat (map (fun x => option_list (f x)) l) = omap f l.
Proof.
  induction l as [| x l IH]; simpl; [done |]. rewrite IH. by destruct (f x).
Qed.


Lemma handled_batches self turn :
  batches (events (handled self turn).1.2) = option_list (turn_batch turn).
Proof.
  unfold handled, handle, onFulfilled, onRejected, turn_batch, turn_results.
  destruct (reply turn) as [data | err]; [| by case_match].
  destruct (update_since _ data) as [self1 seqs] eqn:Hs.
  destruct (emit_batch _ data _) as [acts nxt] eqn:Hb. simpl.
  rewrite !batches_events_app.
  assert (batches (events (emit_changes data)) = []) as ->.
  { unfold emit_changes. case_match; [apply batches_emitted | done]. }
  assert (batches (events seqs) = []) as ->.
  { revert Hs. unfold update_since. repeat case_match; by intros [= <- <-]. }
  simpl. revert Hb. unfold emit_batch, pace.
  destruct (has_results data) eqn:Hr.
  - destruct data as [[[[| c l] |] ls] |]; try discriminate Hr.
    simpl. by destruct (wait _); intros [= <- <-].
  - rewrite (has_results_of _ Hr). repeat case_match; by intros [= <- <-].
Qed.


Lemma concat_turn_batches (l : list Turn) :
  concat (omap turn_batch l) = concat (map turn_results l).
Proof.
  induction l as [| turn l IH]; [done |].
  change (omap turn_batch (turn :: l))
    with (match turn_batch turn with
          | Some b => b :: omap turn_batch l
          | None => omap turn_batch l
          end).
  change (concat (map turn_results (turn :: l)))
    with (turn_results turn ++ concat (map turn_results l)).
  rewrite <- IH. unfold turn_batch at 1.
  by destruct (turn_results turn).
Qed.

(** (X11) The 'batch' events of a run are the non-empty [results] arrays of
    the responses received, one event for each, in order: no batch is ever
    empty, a response without results gives none, and laid end to end the
    batches are exactly the records of the 'change' events. *)
Theorem batches_are_results (opts : Opts.t) (self : t) (now : Z)
    (script : list Turn) :
  let tr := (doWhilst opts self now script).1 in
  batches (events tr) = omap turn_batch (consumed tr script) /\
  Forall (fun b => b <> []) (batches (events tr)) /\
  concat (batches (events tr)) = change_events tr.
Proof.
  intros tr. subst tr.
  assert (Hb : batches (events (doWhilst opts self now script).1) =
               omap turn_batch (consumed (doWhilst opts self now script).1 script)).
  { rewrite <- concat_option_list.
    apply (run_observation (fun acts => batches (events acts))
             (fun turn => option_list (turn_batch turn)));
      [done | apply batches_events_app | done | done | apply handled_batches]. }
  split; [exact Hb |]. split.
  - rewrite Hb. apply Forall_forall. intros b Hin.
    apply list_elem_of_omap in Hin as (turn & _ & Ht).
    unfold turn_batch in Ht. by destruct (turn_results turn); simplify_eq.
  - rewrite Hb, concat_turn_batches. symmetry.
    apply (run_observation change_events turn_results);
      [done | apply change_events_app | done | done | apply handled_change_events].
Qed.

(** *** Bounded and unbounded runs *)

Lemma handled_short self turn l ls :
  stopOnEmptyChanges self = true ->
  reply turn = Fulfilled (Some {| results := Some l; last_seq := ls |}) ->
  Z.of_nat (length l) < batchSize self ->
  continue (handled self turn).1.1 = false.
Proof.
  intros Hflag Hr Hlt. unfold handled, handle. rewrite Hr. unfold onFulfilled.
  destruct (update_since _ _) as [s1 seqs] eqn:Hs.
  destruct (emit_batch _ _ _) as [acts nxt]. simpl.
  assert (Hf : stopOnEmptyChanges s1 = true /\ batchSize s1 = batchSize self).
  { revert Hs. unfold update_since, in_flight. simpl.
    destruct (stop_in_flight turn), (truthy ls && _); by intros [= <- <-]. }
  destruct Hf as [-> ->]. simpl.
  by replace (Z.of_nat (length l) <? batchSize self) with true
    by (symmetry; apply Z.ltb_lt; lia).
Qed.

(** (X12) A bounded run is over by the first short response: in a session
    with [stopOnEmptyChanges] set, if the response to the request of rank
    [k] holds fewer results than [batchSize], the run issues no request
    beyond that one, and it is not left polling. *)
Theorem bounded_run_stops (opts : Opts.t) (script : list Turn) (k : nat)
    (self : t) (now : Z) (turn : Turn) (l : list Change.t) (ls : JsVal) :
  stopOnEmptyChanges self = true ->
  script !! k = Some turn ->
  reply turn = Fulfilled (Some {| results := Some l; last_seq := ls |}) ->
  Z.of_nat (length l) < batchSize self ->
  let r := doWhilst opts self now script in
  (length (requests r.1) <= S k)%nat /\ forall s, r.2 <> InFlight s.
Proof.
  intros Hflag Hk Hr Hlt r. subst r.
  assert (Hle : (length (requests (doWhilst opts self now script).1) <= S k)%nat).
  { revert script self now Hflag Hk Hlt.
    induction k as [| k IH]; intros script self now Hflag Hk Hlt;
      destruct script as [| t0 script]; try discriminate Hk.
    - injection Hk as ->.
      assert (Hc : continue (after_turn self turn) = false).
      { unfold after_turn. destruct (stop_before_next turn); [done |].
        by eapply handled_short. }
      rewrite (last_turn _ _ _ _ _ Hc), prepend_fst, requests_app,
        requests_cons_request, handled_requests.
      by destruct (next_call turn (handled self turn).2).
    - simpl in Hk. rewrite doWhilst_cons, prepend_fst, requests_app,
        requests_cons_request, handled_requests. simpl.
      destruct (same_config_fields _ _ (same_config_after_turn self t0))
        as (Hb & _ & _ & Hf & _).
      destruct (next_call t0 (handled self t0).2) as [[err d] |]; [| simpl; lia].
      destruct (truthy err); [simpl; lia |].
      destruct (continue (after_turn self t0)); [| simpl; lia].
      apply le_n_S. apply IH; [by rewrite Hf | done | by rewrite Hb]. }
  split; [exact Hle |]. intros s Hin.
  apply in_flight_requests in Hin. apply lookup_lt_Some in Hk. lia.
Qed.

Lemma undisturbed_turn self turn :
  stopOnEmptyChanges self = false ->
  continue self = true ->
  undisturbed (wait self) turn ->
  continue (after_turn self turn) = true /\
  exists d, next_call turn (handled self turn).2 = Some (JUndefined, d).
Proof.
  intros Hflag Hc (Hs1 & Hs2 & Hreply).
  unfold after_turn, handled, in_flight. rewrite Hs1, Hs2.
  unfold handle. destruct (reply turn) as [data | err].
  - unfold onFulfilled.
    assert (Hup : let s1 := (update_since self data).1 in
              continue s1 = true /\ stopOnEmptyChanges s1 = false /\
              wait s1 = wait self).
    { unfold update_since. destruct data as [d |]; [| done].
      by destruct (truthy _ && _). }
    destruct (update_since self data) as [s1 seqs]. simpl in Hup.
    destruct Hup as (Hc1 & Hf1 & Hw1).
    assert (Hst : stop_on_small_batch s1 data = s1).
    { unfold stop_on_small_batch. rewrite Hf1. by repeat case_match. }
    rewrite Hst. unfold emit_batch, pace. rewrite Hc1, Hw1. simpl.
    destruct (wait self) eqn:Hw, (has_results data) eqn:Hres; simpl.
    + destruct (Hreply eq_refl eq_refl) as [d ->]. split; [done |]. by exists d.
    + destruct (latency turn >? timeout s1); simpl; split; eauto.
    + split; eauto.
    + destruct (latency turn >? timeout s1); simpl; split; eauto.
  - unfold onRejected. rewrite Hreply. simpl. split; eauto.
Qed.

(** (X13) An unbounded run does not end of its own accord: in a session
    that is running without [stopOnEmptyChanges], as long as the consumer
    does not call [stop()], no failure is a fatal one and, in [wait] mode,
    every batch is acknowledged, each reply is followed by a new request,
    whatever the responses hold, and the run is left polling, no 'end'
    event emitted. *)
Theorem unbounded_run_goes_on (opts : Opts.t) (script : list Turn)
    (self : t) (now : Z) :
  stopOnEmptyChanges self = false ->
  continue self = true ->
  Forall (undisturbed (wait self)) script ->
  let r := doWhilst opts self now script in
  (exists s, r.2 = InFlight s) /\
  length (requests r.1) = S (length script) /\
  end_tokens r.1 = [].
Proof.
  intros Hflag Hc Hall r. subst r.
  revert self now Hflag Hc Hall.
  induction script as [| turn script IH]; intros self now Hflag Hc Hall.
  - split; [by exists self | done].
  - apply Forall_cons in Hall as [Hturn Hall].
    destruct (undisturbed_turn _ _ Hflag Hc Hturn) as (Hc' & d & Hnext).
    destruct (same_config_fields _ _ (same_config_after_turn self turn))
      as (_ & _ & Hw & Hf & _).
    rewrite doWhilst_cons, Hnext, Hc'. simpl truthy. cbv iota.
    rewrite prepend_fst, prepend_snd, requests_app, requests_cons_request,
      handled_requests, end_tokens_app.
    destruct (IH (after_turn self turn) (now + latency turn + d))
      as (Hin & Hlen & Hend); [by rewrite Hf | done | by rewrite Hw |].
    split; [exact Hin |]. split; [simpl; by rewrite Hlen |].
    simpl. by rewrite handled_end_tokens, Hend.
Qed.

(** *** Backpressure *)

Lemma handled_wait_batch self turn data :
  wait self = true ->
  reply turn = Fulfilled data ->
  has_results data = true ->
  (handled self turn).2 = NextOnAck /\
  exists pre, (handled self turn).1.2 =
                pre ++ [Emit (EBatch (results_of data) true)].
Proof.
  intros Hw Hr Hres. unfold handled, handle. rewrite Hr. unfold onFulfilled.
  assert (Hw1 : wait (update_since (in_flight self turn) data).1 = true).
  { rewrite <- Hw. unfold update_since, in_flight.
    destruct data as [d |], (stop_in_flight turn); try done;
      by destruct (truthy _ && _). }
  destruct (update_since _ data) as [s1 seqs]. simpl in Hw1.
  assert (Hw2 : wait (stop_on_small_batch s1 data) = true).
  { rewrite <- Hw1. unfold stop_on_small_batch. by repeat case_match. }
  unfold emit_batch. rewrite Hw2, Hres. simpl. split; [done |].
  exists (emit_changes data ++ seqs). by rewrite <- app_assoc.
Qed.

(** (X14) In [wait] mode the consumer paces the loop.  A response with
    results ends in a 'batch' event that carries a callback, and nothing
    follows it until the callback is invoked: if it never is, the run stays
    there, no request beyond the first, no 'end'; and a next request, when
    there is one, goes out when the consumer acknowledged, not before. *)
Theorem wait_mode_awaits_ack (opts : Opts.t) (self : t) (now : Z)
    (turn : Turn) (script : list Turn) (data : option Body) :
  wait self = true ->
  reply turn = Fulfilled data ->
  has_results data = true ->
  let r := doWhilst opts self now (turn :: script) in
  (ack turn = None ->
   exists pre,
     r = (Request now (request self opts) ::
            pre ++ [Emit (EBatch (results_of data) true)],
          AwaitingAck (handled self turn).1.1)) /\
  (forall ts req,
     requests r.1 !! 1%nat = Some (ts, req) ->
     exists d, ack turn = Some d /\ ts = now + latency turn + d).
Proof.
  intros Hw Hr Hres r. subst r.
  destruct (handled_wait_batch _ _ _ Hw Hr Hres) as (Hnxt & pre & Hacts).
  split.
  - intros Hack. exists pre.
    rewrite doWhilst_cons, Hnxt, Hacts. simpl next_call. rewrite Hack. simpl.
    unfold prepend. simpl. by rewrite app_nil_r.
  - intros ts req Hnext.
    destruct (ack turn) as [d |] eqn:Hack.
    + exists d. split; [done |].
      destruct (next_request_continue _ _ _ _ _ _ Hnext) as [_ Hx].
      rewrite Hnxt in Hx. simpl in Hx. rewrite Hack in Hx. simpl in Hx.
      by injection Hx as -> _.
    + rewrite doWhilst_cons, Hnxt in Hnext. simpl next_call in Hnext.
      rewrite Hack in Hnext. simpl in Hnext.
      rewrite app_nil_r, handled_requests in Hnext. done.
Qed.

(** *** 'seq' events and timers *)

Lemma seq_tokens_app a b : seq_tokens (a ++ b) = seq_tokens a ++ seq_tokens b.
Proof. apply omap_app. Qed.

(** Where no 'end' event is emitted, the tokens are those of the 'seq'
    events. *)
Lemma seq_tokens_tokens acts : end_tokens acts = [] -> seq_tokens acts = tokens acts.
Proof.
  induction acts as [| a acts IH]; [done |].
  destruct a as [ts req | [c | d b | token | code | token] | delay]; simpl;
    intros He; try by apply IH.
  - f_equal. by apply IH.
  - discriminate He.
Qed.

Lemma handled_seq_tokens self turn :
  seq_tokens (handled self turn).1.2 =
  match returned turn with
  | Some token => if bool_decide (token = since self) then [] else [token]
  | None => []
  end.
Proof.
  rewrite seq_tokens_tokens by apply handled_end_tokens. apply handled_tokens.
Qed.

(** (X15) A 'seq' event is emitted only when the cursor moves: through a
    run, each 'seq' event carries a token other than that of the 'seq'
    event before it, and the first a token other than the cursor the run
    began with.  A response that repeats the cursor gives no 'seq' event. *)
Theorem seq_events_differ (opts : Opts.t) (script : list Turn) (self : t)
    (now : Z) :
  chain (fun a b : JsVal => a <> b)
    (since self :: seq_tokens (doWhilst opts self now script).1).
Proof.
  revert self now.
  induction script as [| turn script IH]; intros self now; [done |].
  rewrite doWhilst_cons, prepend_fst.
  change (Request now (request self opts) :: ?l)
    with ([Request now (request self opts)] ++ l).
  rewrite <- app_assoc, !seq_tokens_app, handled_seq_tokens. simpl app.
  assert (Hrest : chain (fun a b : JsVal => a <> b)
    (since (after_turn self turn) ::
     seq_tokens match next_call turn (handled self turn).2 with
                | Some (err, d) =>
                    if truthy err then finish (after_turn self turn)
                    else if continue (after_turn self turn)
                         then doWhilst opts (after_turn self turn)
                                (now + latency turn + d) script
                         else finish (after_turn self turn)
                | None => ([], AwaitingAck (handled self turn).1.1)
                end.1)).
  { destruct (next_call turn (handled self turn).2) as [[err d] |]; [| done].
    destruct (truthy err); [done |].
    destruct (continue (after_turn self turn)); [apply IH | done]. }
  rewrite since_after_turn in Hrest.
  destruct (returned turn) as [token |]; [| exact Hrest].
  simpl default in Hrest.
  case_bool_decide as Heq; [by rewrite <- Heq |].
  apply chain_cons; [congruence | exact Hrest].
Qed.

Lemma timers_app a b : timers (a ++ b) = timers a ++ timers b.
Proof. apply omap_app. Qed.

Lemma timers_emitted (l : list Change.t) :
  timers (map (fun c => Emit (EChange c)) l) = [].
Proof. by induction l. Qed.

(** The one timer a handler may arm is that of the pacing. *)
Lemma handled_timers self turn :
  timers (handled self turn).1.2 = [] \/
  (turn_results turn = [] /\ turn_error turn = None /\
   latency turn <= timeout self /\
   timers (handled self turn).1.2 = [timeout self - latency turn]).
Proof.
  unfold handled, handle, onFulfilled, onRejected, turn_results, turn_error.
  destruct (reply turn) as [data | err]; [| left; by case_match].
  destruct (update_since _ data) as [self1 seqs] eqn:Hs.
  assert (Ht : timeout (stop_on_small_batch self1 data) = timeout self).
  { transitivity (timeout self1).
    - unfold stop_on_small_batch. by repeat case_match.
    - revert Hs. unfold update_since, in_flight.
      destruct data as [d |], (stop_in_flight turn); try by intros [= <- <-].
      all: destruct (truthy _ && _); by intros [= <- <-]. }
  destruct (emit_batch _ data _) as [acts nxt] eqn:Hb. simpl.
  rewrite !timers_app.
  assert (timers (emit_changes data) = []) as ->.
  { unfold emit_changes. case_match; [apply timers_emitted | done]. }
  assert (timers seqs = []) as ->.
  { revert Hs. unfold update_since. repeat case_match; by intros [= <- <-]. }
  simpl. revert Hb. unfold emit_batch, pace. rewrite Ht.
  destruct (has_results data) eqn:Hres.
  - destruct (wait _); intros [= <- <-]; by left.
  - rewrite (has_results_of _ Hres).
    destruct (latency turn >? timeout self) eqn:Hgt.
    + repeat case_match; intros [= <- <-]; by left.
    + assert (latency turn <= timeout self) by lia.
      repeat case_match; intros [= <- <-]; (by left) || (by right).
Qed.

(** (X16) The only timers of a run are those of the pacing: each is armed
    after a response without results that came within [timeout], for what
    is left of [timeout], so that no timer has a negative delay and none is
    armed after a response with results or after a failure. *)
Theorem timers_are_pacing (opts : Opts.t) (script : list Turn) (self : t)
    (now : Z) :
  Forall (fun delay =>
            0 <= delay /\
            exists turn, turn ∈ script /\ turn_results turn = [] /\
                         turn_error turn = None /\
                         delay = timeout self - latency turn)
    (timers (doWhilst opts self now script).1).
Proof.
  revert self now.
  induction script as [| turn script IH]; intros self now; [by constructor |].
  rewrite doWhilst_cons, prepend_fst.
  change (Request now (request self opts) :: ?l)
    with ([Request now (request self opts)] ++ l).
  rewrite <- app_assoc, !timers_app. simpl app. apply Forall_app. split.
  - destruct (handled_timers self turn) as [-> | (Hres & Herr & Hle & ->)];
      [by constructor |].
    constructor; [| by constructor]. split; [lia |].
    exists turn. split; [by left | done].
  - assert (Hrest : forall self' now',
      timeout self' = timeout self ->
      Forall (fun delay =>
            0 <= delay /\
            exists turn0, turn0 ∈ turn :: script /\ turn_results turn0 = [] /\
                          turn_error turn0 = None /\
                          delay = timeout self - latency turn0)
        (timers (doWhilst opts self' now' script).1)).
    { intros self' now' Ht. eapply Forall_impl; [apply IH |].
      intros delay (Hpos & turn0 & Hin & Hres & Herr & Hd).
      split; [done |]. exists turn0. rewrite <- Ht.
      split; [by right | done]. }
    destruct (same_config_fields _ _ (same_config_after_turn self turn))
      as (_ & Ht & _).
    destruct (next_call turn (handled self turn).2) as [[err d] |];
      [| by constructor].
    destruct (truthy err); [by constructor |].
    destruct (continue (after_turn self turn)); [by apply Hrest | by constructor].
Qed.

End LongPollMore.

(** * Further properties of spool *)

Section SpoolMore.
Import ChangesReader.
Variable liner : list string -> list string.
Variable JSON_parse : string -> option Change.t.

Local Abbreviation spool := (ChangesReader.spool liner JSON_parse).

(** (X17) [spool] has no [started] guard: on any session it resets the
    fields to their defaults overlaid with [opts] and installs a new
    emitter, which it returns.  When the stream arrives, every record the
    splitter and the parser make of it is delivered, in order, in 'batch'
    events, none carrying a callback; then a timer of 10 ms is armed and one
    'end' event follows, with the [seq] of the last record of the stream, or
    ['0'] when the stream held no record.  No 'change' and no 'seq' event is
    emitted. *)
Theorem spool_delivers_stream (opts : Opts.t) (self : t) (now : Z)
    (chunks : list string) :
  let out := spool opts self now (SpoolStream chunks) in
  let rs := records JSON_parse (liner chunks) in
  out.1.1 = assign (setDefaults self) opts /\
  out.1.2 = S (ee self) /\
  exists bl,
    out.2 = Request now (spool_request out.1.1) ::
            map (fun b => Emit (EBatch b false)) bl ++
            [SetTimeout 10; Emit (EEnd (from_option Change.seq (JStr "0") (last rs)))] /\
    concat bl = rs.
Proof.
  unfold ChangesReader.spool. cbv zeta.
  set (s := assign (setDefaults self) opts).
  set (cp := ChangeProcessor.create (batchSize s)).
  pose proof (pipe_lastSeq JSON_parse cp (liner chunks)) as Hl.
  pose proof (pipe_only_batches JSON_parse cp (liner chunks)) as Hb.
  destruct (pipe_conserves JSON_parse cp (liner chunks)) as [Hc _].
  destruct (ChangeProcessor.pipe JSON_parse cp (liner chunks)) as [cp' evs].
  simpl in *. split; [done |]. split; [done |].
  exists (batches evs). split; [| exact Hc].
  rewrite <- Hc, <- Hl. f_equal. f_equal.
  rewrite <- Hb at 1. by rewrite map_map.
Qed.

End SpoolMore.

(** * Further properties: the constructor and the classification of failures *)

Section ReaderMore.
Import ChangesReader.

(** (X18) A failure ends a run only if a response came back with a client
    status: the handler takes it for fatal exactly when the response carries
    a status from 400 to 499 other than 429.  A failure without a response,
    or with a status of 0, is normalized to 500 and is never fatal. *)
Theorem fatal_iff_client_status (self : t) (err : Err) :
  (continue (onRejected self err).1.1 = false /\ continue self = true <->
   continue self = true /\
   exists st, response_status err = Some st /\ 400 <= st < 500 /\ st <> 429) /\
  (response_status err = None \/ response_status err = Some 0 ->
   onRejected self err = (self, [Emit (EError 500)], NextNow JUndefined)).
Proof.
  split.
  - unfold onRejected, statusCode.
    destruct (response_status err) as [st |].
    + destruct (st =? 0) eqn:Hz.
      * destruct (fatal 500) eqn:H5; [apply fatal_spec in H5; lia |]. simpl.
        split; [intros [H1 H2]; congruence |].
        intros (_ & st' & [= <-] & Hr & _). lia.
      * destruct (fatal st) eqn:Hs; simpl.
        -- apply fatal_spec in Hs. split; [| by intros [? _]].
           intros [_ Hc]. split; [done |]. by exists st.
        -- split; [intros [H1 H2]; congruence |].
           intros (_ & st' & [= <-] & Hr & Hn).
           assert (fatal st = true) by (apply fatal_spec; lia). congruence.
    + destruct (fatal 500) eqn:H5; [apply fatal_spec in H5; lia |]. simpl.
      split; [intros [H1 H2]; congruence |]. by intros (_ & st' & [=] & _).
  - intros Hn. unfold onRejected, statusCode.
    by destruct Hn as [-> | ->].
Qed.


End ReaderMore.

(** * The further properties on the sample inputs *)

Section SamplesMore.
Import ChangesReader.

Lemma buffer_below_batch_size_witness :
  0 < 2 /\
  Z.of_nat (length (ChangeProcessor.buffer
                      (ChangeProcessor.write Sample.parse
                         (ChangeProcessor.create 2) Sample.feed).1)) < 2.
Proof.
  split; [lia |]. apply (buffer_below_batch_size Sample.parse 2 Sample.feed). lia.
Defined.

Lemma no_batch_size_delivers_at_end_witness :
  let cp := ChangeProcessor.create 0 in
  ChangeProcessor.batchSize cp <= 0 /\
  (ChangeProcessor.pipe Sample.parse cp Sample.feed).2 =
    replicate (length (records Sample.parse Sample.feed)) (EBatch [] false) ++
    match ChangeProcessor.buffer cp ++ records Sample.parse Sample.feed with
    | [] => []
    | all => [EBatch all false]
    end.
Proof.
  intros cp.
  assert (H : ChangeProcessor.batchSize cp <= 0) by (simpl; lia).
  split; [exact H |].
  exact (proj2 (proj2 (proj2
           (no_batch_size_delivers_at_end Sample.parse cp Sample.feed H)))).
Defined.

Lemma extra_parameters_win_witness :
  let q : gmap string JsVal := {[ "since" := JStr "0"; "style" := JStr "all_docs" ]} in
  Opts.qs Sample.qs_opts = Some q /\
  params (request Sample.reader Sample.qs_opts) !! "since" =
    match q !! "since" with
    | Some v => Some v
    | None => params (request Sample.reader no_opts) !! "since"
    end /\
  params (request Sample.reader Sample.qs_opts) !! "since" = Some (JStr "0").
Proof.
  intros q.
  assert (H : Opts.qs Sample.qs_opts = Some q) by reflexivity.
  split; [exact H |]. split; [| reflexivity].
  exact (extra_parameters_win Sample.qs_opts Sample.reader q "since" H).
Defined.

Lemma requests_follow_cursor_witness :
  let script := [Sample.answer [Sample.change 1] (JStr "1-a") 20;
                 Sample.failure None 30;
                 Sample.answer [] (JStr "1-a") 40] in
  let req := request (set_since (JStr "1-a") Sample.reader) no_opts in
  requests (doWhilst no_opts Sample.reader 0 script).1 !! 2%nat = Some (50, req) /\
  req = request (set_since (last_returned (since Sample.reader) (take 2 script))
                   Sample.reader) no_opts /\
  params req !! "since" =
    Some (default (last_returned (since Sample.reader) (take 2 script))
            (Opts.qs no_opts ≫= fun q => q !! "since")).
Proof.
  intros script req.
  assert (H : requests (doWhilst no_opts Sample.reader 0 script).1 !! 2%nat =
              Some (50, req)) by reflexivity.
  split; [exact H |].
  exact (requests_follow_cursor no_opts Sample.reader 0 script 2 50 req H).
Defined.

Lemma stop_ends_run_witness :
  let turn := Sample.stopped_failure (Some 503) 20 in
  let script := [Sample.answer [Sample.change 1] (JStr "1-a") 20] in
  let r := doWhilst no_opts Sample.reader 0 (turn :: script) in
  (continue Sample.reader = false \/ stop_in_flight turn = true \/
     stop_before_next turn = true) /\
  requests r.1 = [(0, request Sample.reader no_opts)] /\
  change_events r.1 = turn_results turn /\
  forall s, r.2 <> InFlight s.
Proof.
  intros turn script r.
  assert (H : continue Sample.reader = false \/ stop_in_flight turn = true \/
              stop_before_next turn = true) by (right; left; reflexivity).
  split; [exact H |].
  exact (stop_ends_run no_opts Sample.reader 0 turn script H).
Defined.

Lemma run_end_resets_witness :
  let script := [Sample.answer [Sample.change 1] (JStr "1-a") 20;
                 Sample.failure (Some 401) 20] in
  let opts := Sample.since_opts (JStr "0") in
  let self := (start opts Sample.reader).1.1 in
  let s := setDefaults Sample.reader in
  (doWhilst opts self 0 script).2 = Ended s /\
  s = setDefaults self /\
  forall opts', start opts' s = (assign (set_started true s) opts', S (ee self), true).
Proof.
  intros script opts self s.
  assert (H : (doWhilst opts self 0 script).2 = Ended s) by reflexivity.
  split; [exact H |].
  exact (run_end_resets opts script self 0 s H).
Defined.

Lemma bounded_run_stops_witness :
  let script := [Sample.answer [Sample.change 1; Sample.change 2] (JStr "2-b") 20;
                 Sample.answer [Sample.change 3] (JStr "3-c") 20;
                 Sample.answer [Sample.change 4] (JStr "4-d") 20] in
  let opts := Opts.Build (Some 2) None None None None None None None None None
                None None in
  let self := (get opts Sample.reader).1.1 in
  let turn := Sample.answer [Sample.change 3] (JStr "3-c") 20 in
  let r := doWhilst opts self 0 script in
  stopOnEmptyChanges self = true /\
  script !! 1%nat = Some turn /\
  Z.of_nat (length [Sample.change 3]) < batchSize self /\
  (length (requests r.1) <= 2)%nat /\
  forall s, r.2 <> InFlight s.
Proof.
  intros script opts self turn r.
  assert (H1 : stopOnEmptyChanges self = true) by reflexivity.
  assert (H2 : script !! 1%nat = Some turn) by reflexivity.
  assert (H3 : Z.of_nat (length [Sample.change 3]) < batchSize self)
    by (simpl; lia).
  split; [exact H1 |]. split; [exact H2 |]. split; [exact H3 |].
  exact (bounded_run_stops opts script 1 self 0 turn [Sample.change 3]
           (JStr "3-c") H1 H2 eq_refl H3).
Defined.

Lemma unbounded_run_goes_on_witness :
  let script := [Sample.answer [Sample.change 1] (JStr "1-a") 20;
                 Sample.failure (Some 503) 30;
                 Sample.failure None 30;
                 Sample.answer [] (JStr "1-a") 40] in
  let r := doWhilst no_opts Sample.started_reader 0 script in
  stopOnEmptyChanges Sample.started_reader = false /\
  continue Sample.started_reader = true /\
  Forall (undisturbed (wait Sample.started_reader)) script /\
  (exists s, r.2 = InFlight s) /\
  length (requests r.1) = S (length script) /\
  end_tokens r.1 = [].
Proof.
  intros script r.
  assert (H1 : stopOnEmptyChanges Sample.started_reader = false) by reflexivity.
  assert (H2 : continue Sample.started_reader = true) by reflexivity.
  assert (H3 : Forall (undisturbed (wait Sample.started_reader)) script).
  { repeat constructor; discriminate. }
  split; [exact H1 |]. split; [exact H2 |]. split; [exact H3 |].
  exact (unbounded_run_goes_on no_opts script Sample.started_reader 0 H1 H2 H3).
Defined.

Lemma wait_mode_awaits_ack_witness :
  let turn := Sample.acked_answer [Sample.change 1] (JStr "1-a") 20 300 in
  let data := Some {| results := Some [Sample.change 1]; last_seq := JStr "1-a" |} in
  let script := [Sample.answer [Sample.change 2] (JStr "2-b") 20] in
  let r := doWhilst Sample.wait_opts Sample.waiting_reader 0 (turn :: script) in
  wait Sample.waiting_reader = true /\
  reply turn = Fulfilled data /\
  has_results data = true /\
  requests r.1 !! 1%nat =
    Some (320, request (after_turn Sample.waiting_reader turn) Sample.wait_opts) /\
  exists d, ack turn = Some d /\ 320 = 0 + latency turn + d.
Proof.
  intros turn data script r.
  assert (H1 : wait Sample.waiting_reader = true) by reflexivity.
  assert (H2 : reply turn = Fulfilled data) by reflexivity.
  assert (H3 : has_results data = true) by reflexivity.
  assert (H4 : requests r.1 !! 1%nat =
    Some (320, request (after_turn Sample.waiting_reader turn) Sample.wait_opts))
    by reflexivity.
  split; [exact H1 |]. split; [exact H2 |]. split; [exact H3 |].
  split; [exact H4 |].
  exact (proj2 (wait_mode_awaits_ack Sample.wait_opts Sample.waiting_reader 0
                  turn script data H1 H2 H3) _ _ H4).
Defined.

End SamplesMore.
